(** * e4b: an embeddings database with locality-sensitive hashing

    A shallow embedding of [e4b.cpp] / [e4b.h] and the properties of its
    indexing and query engine: [e4b_init], [e4b_internal_hash_to_key],
    [e4b_internal_grow], [e4b_index], [e4b_query], [e4b_lsh] and
    [e4b_cosine_similarity]. ([e4b_default_context_params] needs [log] and
    [acos] and is left out; parameters are given in full.)

    Conventions of the embedding:
    - [uint32_t] and [int] values are [Z]; every wrap-around of the source is
      written with [to_uint32] / [to_int].
    - [float] is IEEE 754 binary32, through the Standard Library's
      [SpecFloat] operations at precision 24; each operation rounds to
      nearest even.
    - a C buffer ([const float *], [const int *], [e4b_entry *]) is the list
      of the objects it holds, and a pointer kept in an entry is the buffer
      it pointed to at the call. Reading or writing past the end of a buffer
      is undefined behaviour, which the embedding reports as [Undef].
    - a function that can throw or run into undefined behaviour returns an
      [outcome]. Allocation never fails and nothing is freed. *)

From Stdlib Require Import ZArith List Lia Bool Ascii String Permutation.
From Stdlib Require Import Floats.SpecFloat.
From stdpp Require Import base option list strings gmap.

Local Open Scope Z_scope.

(** ** Outcomes of a call *)

Variant exception := out_of_range.

Variant undefined :=
  | buffer_overrun      (* index past the end of an array *)
  | indeterminate_read  (* use of a slot that was never written *)
  | float_cast_range.   (* float-to-integer cast of an unrepresentable value *)

Inductive outcome (A : Type) : Type :=
  | Ret (a : A)
  | Throw (e : exception)
  | Undef (u : undefined).
Arguments Ret {A} a.
Arguments Throw {A} e.
Arguments Undef {A} u.

#[export] Instance outcome_ret : MRet outcome := @Ret.

#[export] Instance outcome_bind : MBind outcome := fun A B k m =>
  match m with
  | Ret a => k a
  | Throw e => Throw e
  | Undef u => Undef u
  end.

#[export] Instance outcome_fmap : FMap outcome := fun A B f m =>
  match m with
  | Ret a => Ret (f a)
  | Throw e => Throw e
  | Undef u => Undef u
  end.

(** [for (uint32_t i = 0; i < n; i++) body], the loop state passed along. *)
Fixpoint for_loop_from {S} (i : nat) (n : nat) (body : nat -> S -> outcome S) (s : S)
  : outcome S :=
  match n with
  | O => Ret s
  | Datatypes.S n' => s' ← body i s; for_loop_from (Datatypes.S i) n' body s'
  end.

Definition for_loop {S} (n : nat) (body : nat -> S -> outcome S) (s : S) : outcome S :=
  for_loop_from 0 n body s.

(** [a[i]] as an rvalue and [a[i] = x] on a buffer of known extent. *)
Definition read {A} (a : list A) (i : nat) : outcome A :=
  match a !! i with
  | Some x => Ret x
  | None => Undef buffer_overrun
  end.

Definition write {A} (a : list A) (i : nat) (x : A) : outcome (list A) :=
  if decide (i < length a)%nat then Ret (<[i := x]> a) else Undef buffer_overrun.

(** ** Machine integers *)

Definition to_uint32 (z : Z) : Z := z mod 2 ^ 32.

Definition to_int (z : Z) : Z := (z + 2 ^ 31) mod 2 ^ 32 - 2 ^ 31.

(** ** binary32 *)

Module F32.
Definition prec : Z := 24.
Definition emax : Z := 128.

Definition float := spec_float.

Definition add : float -> float -> float := SFadd prec emax.
Definition mul : float -> float -> float := SFmul prec emax.
Definition div : float -> float -> float := SFdiv prec emax.
Definition sqrt : float -> float := SFsqrt prec emax.
Definition abs : float -> float := SFabs.
Definition ltb : float -> float -> bool := SFltb.
Definition leb : float -> float -> bool := SFleb.
Definition gtb (x y : float) : bool := SFltb y x.
Definition geb (x y : float) : bool := SFleb y x.

(** Integer-to-float conversion, round to nearest even. *)
Definition of_Z (z : Z) : float := binary_normalize prec emax z 0 false.

(** The dyadic [m * 2^e], rounded: used to write literals. *)
Definition dyadic (m e : Z) : float := binary_normalize prec emax m e false.

Definition zero : float := S754_zero false.

(** The largest integer not above a finite value. *)
Definition floorZ (s : bool) (m : positive) (e : Z) : Z :=
  let sm := if s then Z.neg m else Z.pos m in
  if 0 <=? e then sm * 2 ^ e else sm / 2 ^ (- e).

(** [std::floor] on [float]: zeros, infinities and NaN are returned as they
    are. *)
Definition floor (x : float) : float :=
  match x with
  | S754_finite s m e => binary_normalize prec emax (floorZ s m e) 0 false
  | _ => x
  end.

(** The integer part of a finite value (truncation towards zero). *)
Definition truncZ (s : bool) (m : positive) (e : Z) : Z :=
  let a := if 0 <=? e then Z.pos m * 2 ^ e else Z.pos m / 2 ^ (- e) in
  if s then - a else a.

(** [(int) x]: defined only when the truncated value fits an [int]. *)
Definition to_int (x : float) : outcome Z :=
  match x with
  | S754_zero _ => Ret 0
  | S754_finite s m e =>
      let t := truncZ s m e in
      if decide (- 2 ^ 31 <= t < 2 ^ 31) then Ret t else Undef float_cast_range
  | _ => Undef float_cast_range
  end.

(** [(uint32_t) x]: defined only when the truncated value fits. *)
Definition to_uint32 (x : float) : outcome Z :=
  match x with
  | S754_zero _ => Ret 0
  | S754_finite s m e =>
      let t := truncZ s m e in
      if decide (0 <= t < 2 ^ 32) then Ret t else Undef float_cast_range
  | _ => Undef float_cast_range
  end.
End F32.

Abbreviation float := F32.float.

(** ** Data of [e4b.h] *)

(** The two function-pointer types. A member of [e4b_context_params] of such
    a type holds the address of the built-in function or of a function of the
    caller. The context is an opaque type for a caller of the library, so a
    caller's hash function can use its two other arguments only; the built-in
    one reads the context. Both read [n_embd] floats of a buffer. *)
Variant e4b_similarity_fn_t :=
  | builtin_cosine_similarity
  | caller_similarity (f : list float -> list float -> Z -> outcome float).

Variant e4b_hash_fn_t :=
  | builtin_lsh
  | caller_hash (f : list float -> Z -> outcome (list Z)).

Record e4b_context_params := {
  n_embd : Z;
  n_max : Z;
  similarity_search_target : float;
  fn_similarity : e4b_similarity_fn_t;
  n_hash : Z;
  n_buckets_width : Z;
  fn_hash : e4b_hash_fn_t;
  n_init_capacity : Z;
  grow_ratio : float;
  use_persistent_storage : bool;
  persistent_storage_folder : option string;
}.

Record e4b_entry := {
  text : string;
  embd : list float;
  n_text : Z;
}.

Record e4b_query_result_entry := {
  idx : Z;
  entry : e4b_entry;
  score : float;
}.

(** The [results] member of [e4b_query_results] is one pointer. *)
Variant result_ptr :=
  | null_ptr
  | ptr_to (r : e4b_query_result_entry).

Record e4b_query_results := {
  results : result_ptr;
  n_results : Z;
  total : Z;
}.

(** ** Data of [e4b.cpp] *)

Record e4b_lsh_context := {
  projections : list (list float);
  offsets : list float;
}.

(** A slot of [new e4b_entry[n]] holds nothing until it is assigned. *)
Record e4b_context := {
  cparams : e4b_context_params;
  index : gmap string (list Z);
  lsh_ctx : e4b_lsh_context;
  entries : list (option e4b_entry);
  size : Z;
  capacity : Z;
}.

(** ** Hashing *)

(** [e4b_lsh]. The array [hash] is [new int[n_hash]]; each of its slots is
    assigned by the loop before the function returns. *)
Definition e4b_lsh (ctx : e4b_context) (embd : list float) (n_embd : Z)
  : outcome (list Z) :=
  let n_hash := n_hash (cparams ctx) in
  let hash := replicate (Z.to_nat n_hash) 0 in
  for_loop (Z.to_nat n_hash) (fun i hash =>
    dot ← for_loop (Z.to_nat n_embd) (fun j dot =>
             e ← read embd j;
             row ← read (projections (lsh_ctx ctx)) i;
             p ← read row j;
             Ret (F32.add dot (F32.mul e p))) F32.zero;
    off ← read (offsets (lsh_ctx ctx)) i;
    hi ← F32.to_int (F32.abs (F32.floor (F32.div (F32.add dot off) (F32.of_Z n_hash))));
    write hash i (if decide (Z.rem hi 2 = 1) then 1 else 0)) hash.

Definition call_fn_hash (ctx : e4b_context) (embd : list float) (n_embd : Z)
  : outcome (list Z) :=
  match fn_hash (cparams ctx) with
  | builtin_lsh => e4b_lsh ctx embd n_embd
  | caller_hash f => f embd n_embd
  end.

(** [e4b_cosine_similarity] *)
Definition e4b_cosine_similarity (embd_a embd_b : list float) (n_embd : Z)
  : outcome float :=
  '(dot, norm1, norm2) ←
    for_loop (Z.to_nat n_embd) (fun i '(dot, norm1, norm2) =>
      a ← read embd_a i;
      b ← read embd_b i;
      Ret (F32.add dot (F32.mul a b),
           F32.add norm1 (F32.mul a a),
           F32.add norm2 (F32.mul b b))) (F32.zero, F32.zero, F32.zero);
  let norm1 := F32.sqrt norm1 in
  let norm2 := F32.sqrt norm2 in
  Ret (F32.div dot (F32.mul norm1 norm2)).

Definition call_fn_similarity (ctx : e4b_context) (embd_a embd_b : list float) (n_embd : Z)
  : outcome float :=
  match fn_similarity (cparams ctx) with
  | builtin_cosine_similarity => e4b_cosine_similarity embd_a embd_b n_embd
  | caller_similarity f => f embd_a embd_b n_embd
  end.

(** ** The engine *)

Section Engine.

(** The bytes of the program image that follow the string literal ["0"].
    [std::string key("0", n_hash)] copies [n_hash] bytes starting at the
    literal, which holds two (the digit and the terminator); the rest of the
    key comes from what the image has there. *)
Variable rodata : nat -> ascii.

(** [std::sort] with the comparator of [e4b_query]. It is not a stable sort,
    so the embedding fixes no algorithm: it rearranges its argument. *)
Variable std_sort : list e4b_query_result_entry -> list e4b_query_result_entry.

Definition literal_0 (k : nat) : ascii :=
  match k with
  | O => "0"%char
  | 1%nat => Ascii.zero
  | Datatypes.S (Datatypes.S k') => rodata k'
  end.

(** [e4b_internal_hash_to_key] *)
Definition e4b_internal_hash_to_key (hash : list Z) (n_hash : Z) : outcome string :=
  let key := literal_0 <$> seq 0 (Z.to_nat n_hash) in
  key ← for_loop (Z.to_nat n_hash) (fun i key =>
           h ← read hash i;
           if decide (h > 0) then write key i "1"%char else Ret key) key;
  Ret (string_of_list_ascii key).

Definition with_store (ctx : e4b_context) (entries' : list (option e4b_entry))
    (size' capacity' : Z) : e4b_context :=
  {| cparams := cparams ctx; index := index ctx; lsh_ctx := lsh_ctx ctx;
     entries := entries'; size := size'; capacity := capacity' |}.

Definition with_index (ctx : e4b_context) (index' : gmap string (list Z)) : e4b_context :=
  {| cparams := cparams ctx; index := index'; lsh_ctx := lsh_ctx ctx;
     entries := entries ctx; size := size ctx; capacity := capacity ctx |}.

(** [e4b_internal_grow]. The cast applies to [grow_ratio] alone, the product
    is a [uint32_t] product. *)
Definition e4b_internal_grow (ctx : e4b_context) : outcome (e4b_context * bool) :=
  if use_persistent_storage (cparams ctx) then Ret (ctx, false)
  else
    ratio ← F32.to_uint32 (grow_ratio (cparams ctx));
    let capacity' := to_uint32 (ratio * capacity ctx) in
    let entries' := replicate (Z.to_nat capacity') None in
    entries' ← for_loop (Z.to_nat (size ctx)) (fun i entries' =>
                  e ← read (entries ctx) i;
                  write entries' i e) entries';
    Ret (with_store ctx entries' (size ctx) capacity', true).

(** [ctx->index[key].push_back(idx)]: the bucket is created empty when the
    key is new; the handle is stored as an [int]. *)
Definition index_push_back (m : gmap string (list Z)) (key : string) (idx : Z)
  : gmap string (list Z) :=
  <[key := default [] (m !! key) ++ [to_int idx]]> m.

(** [e4b_index]: the context after the call and the value returned. *)
Definition e4b_index (ctx : e4b_context) (text : string) (n_text : Z) (embd : list float)
  : outcome (e4b_context * Z) :=
  hash ← call_fn_hash ctx embd (n_embd (cparams ctx));
  key ← e4b_internal_hash_to_key hash (n_hash (cparams ctx));
  '(ctx, grown) ← (if decide (capacity ctx = size ctx)
                   then e4b_internal_grow ctx else Ret (ctx, true));
  if negb grown then Ret (ctx, to_uint32 (-1))
  else
    let idx := size ctx in
    entries' ← write (entries ctx) (Z.to_nat idx)
                 (Some {| text := text; embd := embd; n_text := n_text |});
    let ctx := with_store ctx entries' (to_uint32 (size ctx + 1)) (capacity ctx) in
    Ret (with_index ctx (index_push_back (index ctx) key idx), idx).

(** [ctx->index.at(key)] *)
Definition index_at (m : gmap string (list Z)) (key : string) : outcome (list Z) :=
  match m !! key with
  | Some bucket => Ret bucket
  | None => Throw out_of_range
  end.

(** The object held by slot [i] of the entry array. *)
Definition read_entry (a : list (option e4b_entry)) (i : nat) : outcome e4b_entry :=
  slot ← read a i;
  match slot with
  | Some e => Ret e
  | None => Undef indeterminate_read
  end.

(** The function object given to [std::transform] in [e4b_query]. The second
    argument of [fn_similarity] is [entries->embd]. *)
Definition e4b_query_score (ctx : e4b_context) (q_embd : list float) (idx : Z)
  : outcome e4b_query_result_entry :=
  let idx := to_uint32 idx in
  entry ← read_entry (entries ctx) (Z.to_nat idx);
  entries0 ← read_entry (entries ctx) 0;
  similarity ← call_fn_similarity ctx q_embd (embd entries0) (n_embd (cparams ctx));
  let score := F32.div (F32.of_Z 1) (F32.add (F32.of_Z 1) similarity) in
  Ret {| idx := idx; entry := entry; score := score |}.

(** The selection loop of [e4b_query] over the sorted [v_results]: the array
    [results], [n_results] and [total]. *)
Definition e4b_query_select (v_results : list e4b_query_result_entry)
    (top_n : Z) (similarity : float)
  : outcome (list (option e4b_query_result_entry) * Z * Z) :=
  let total := to_uint32 (Z.of_nat (length v_results)) in
  let capacity := Z.min top_n total in
  let n_results := 0 in
  let results := replicate (Z.to_nat capacity) None in
  '(results, n_results) ←
    for_loop (Z.to_nat capacity) (fun i '(results, n_results) =>
      result ← read v_results i;
      if F32.geb (score result) similarity
      then results ← write results (Z.to_nat n_results) (Some result);
           Ret (results, to_uint32 (n_results + 1))
      else Ret (results, n_results)) (results, n_results);
  Ret (results, n_results, total).

(** [*results]: a read of the first slot of the array [results]. The array
    has no slot when [capacity] is 0, and its first slot has a value only
    once the loop has assigned it. *)
Definition deref_results (results : list (option e4b_query_result_entry))
  : outcome result_ptr :=
  match results !! 0%nat with
  | Some (Some r) => Ret (ptr_to r)
  | Some None => Undef indeterminate_read
  | None => Undef buffer_overrun
  end.

(** [e4b_query], with the array [results] next to the structure returned:
    that structure has the first element of the array only. *)
Definition e4b_query_array (ctx : e4b_context) (q_embd : list float) (n_q_embd : Z)
    (top_n : Z) (similarity : float)
  : outcome (list (option e4b_query_result_entry) * e4b_query_results) :=
  q_hash ← call_fn_hash ctx q_embd n_q_embd;
  key ← e4b_internal_hash_to_key q_hash (n_hash (cparams ctx));
  bucket ← index_at (index ctx) key;
  if decide (bucket = [])
  then Ret ([], {| results := null_ptr; n_results := 0; total := 0 |})
  else
    v_results ← mapM (e4b_query_score ctx q_embd) bucket;
    let v_results := std_sort v_results in
    '(results, n_results, total) ← e4b_query_select v_results top_n similarity;
    first ← deref_results results;
    Ret (results,
         {| results := first; n_results := n_results; total := total |}).

Definition e4b_query (ctx : e4b_context) (q_embd : list float) (n_q_embd : Z)
    (top_n : Z) (similarity : float) : outcome e4b_query_results :=
  snd <$> e4b_query_array ctx q_embd n_q_embd top_n similarity.

End Engine.

(** ** Construction *)

Section Init.

(** The state of [gen] and of the two distributions, and one draw of each
    converted to [float]: [(float) nd(gen)] and [(float) ud(gen)], the
    latter for [ud(0.0, n_hash)]. *)
Variable generator : Type.
Variable nd : generator -> float * generator.
Variable ud : Z -> generator -> float * generator.

(** The constructor of [e4b_lsh_context]; a [std::vector<float>(n)] holds
    [n] zeros. *)
Definition e4b_lsh_context_new (n_hash n_embd : Z) : e4b_lsh_context :=
  {| projections := replicate (Z.to_nat n_hash) (replicate (Z.to_nat n_embd) F32.zero);
     offsets := replicate (Z.to_nat n_embd) F32.zero |}.

(** [e4b_init], from the state [gen] that [std::random_device] seeded. *)
Definition e4b_init (cparams : e4b_context_params) (gen : generator) : outcome e4b_context :=
  let capacity := to_uint32 (n_init_capacity cparams) in
  let entries := replicate (Z.to_nat capacity) None in
  let lsh := e4b_lsh_context_new (n_hash cparams) (n_embd cparams) in
  '(lsh, gen) ←
    for_loop (Z.to_nat (n_hash cparams)) (fun i '(lsh, gen) =>
      '(lsh, gen) ←
        for_loop (Z.to_nat (n_embd cparams)) (fun j '(lsh, gen) =>
          let '(x, gen) := nd gen in
          row ← read (projections lsh) i;
          row ← write row j x;
          projections' ← write (projections lsh) i row;
          Ret ({| projections := projections'; offsets := offsets lsh |}, gen)) (lsh, gen);
      let '(x, gen) := ud (n_hash cparams) gen in
      offsets' ← write (offsets lsh) i x;
      Ret ({| projections := projections lsh; offsets := offsets' |}, gen)) (lsh, gen);
  Ret {| cparams := cparams; index := ∅; lsh_ctx := lsh;
         entries := entries; size := 0; capacity := capacity |}.

End Init.

(** ** A concrete platform, to run the engine *)

Module Run.

(** The image holds zero bytes after the literal. *)
Definition rodata (k : nat) : ascii := Ascii.zero.

(** A stable insertion sort with [a->score > b->score], the way [std::sort]
    treats a short range: elements are taken from the left, and each goes
    behind the elements it is not greater than. *)
Fixpoint linear_insert (x : e4b_query_result_entry) (l : list e4b_query_result_entry)
  : list e4b_query_result_entry :=
  match l with
  | [] => [x]
  | y :: l' => if F32.gtb (score x) (score y) then x :: l else y :: linear_insert x l'
  end.

Definition std_sort (l : list e4b_query_result_entry) : list e4b_query_result_entry :=
  fold_left (fun sorted x => linear_insert x sorted) l [].

(** A generator that replays a list of draws, then zeros. *)
Definition generator : Type := list float.

Definition draw (g : generator) : float * generator :=
  match g with
  | [] => (F32.zero, [])
  | x :: g' => (x, g')
  end.

Definition nd : generator -> float * generator := draw.
Definition ud (n_hash : Z) : generator -> float * generator := draw.

(** A small index: embeddings of width 4 and one hash bit. The draws give the
    projection vector [(0, 0, 0.25, 0)] and the offset [0.25]. *)
Definition quarter : float := F32.dyadic 1 (-2).
Definition f (z : Z) : float := F32.of_Z z.

Definition two : float := f 2.
Definition three_halves : float := F32.dyadic 3 (-1).

Definition gen0 : generator := [F32.zero; F32.zero; quarter; F32.zero; quarter].

Definition params (ratio : float) (persistent : bool) : e4b_context_params :=
  {| n_embd := 4;
     n_max := 1000000;
     similarity_search_target := F32.div (f 4) (f 5);
     fn_similarity := builtin_cosine_similarity;
     n_hash := 1;
     n_buckets_width := 1;
     fn_hash := builtin_lsh;
     n_init_capacity := 2;
     grow_ratio := ratio;
     use_persistent_storage := persistent;
     persistent_storage_folder := None |}.

(** Parameters with more hash bits than components. *)
Definition params_3_2 : e4b_context_params :=
  {| n_embd := 2;
     n_max := 1000000;
     similarity_search_target := F32.div (f 4) (f 5);
     fn_similarity := builtin_cosine_similarity;
     n_hash := 3;
     n_buckets_width := 1;
     fn_hash := builtin_lsh;
     n_init_capacity := 2;
     grow_ratio := two;
     use_persistent_storage := false;
     persistent_storage_folder := None |}.

Definition projector : e4b_lsh_context :=
  {| projections := [[F32.zero; F32.zero; quarter; F32.zero]];
     offsets := [quarter; F32.zero; F32.zero; F32.zero] |}.

(** The index that [e4b_init] returns. *)
Definition fresh (ratio : float) (persistent : bool) : e4b_context :=
  {| cparams := params ratio persistent;
     index := ∅;
     lsh_ctx := projector;
     entries := [None; None];
     size := 0;
     capacity := 2 |}.

(** The two vectors of the cosine test; their similarity is about 0.956. *)
Definition embd_a : list float := [f 0; f 1; f 2; f 3].
Definition embd_b : list float := [f 0; f 0; f 1; f 2].

Definition entry_a : e4b_entry := {| text := "a"; embd := embd_a; n_text := 1 |}.
Definition entry_b : e4b_entry := {| text := "b"; embd := embd_b; n_text := 1 |}.

(** The index after the inserts of [x] and [y], which share the bucket of
    signature [0]; its store is full. *)
Definition filled (ratio : float) (persistent : bool) (x y : e4b_entry) : e4b_context :=
  {| cparams := params ratio persistent;
     index := {[ "0" := [0; 1] ]};
     lsh_ctx := projector;
     entries := [Some x; Some y];
     size := 2;
     capacity := 2 |}.

Definition one_entry (ratio : float) (persistent : bool) (x : e4b_entry) : e4b_context :=
  {| cparams := params ratio persistent;
     index := {[ "0" := [0] ]};
     lsh_ctx := projector;
     entries := [Some x; None];
     size := 1;
     capacity := 2 |}.

End Run.

(** ** The test of the cosine similarity *)

(** [tests/test-cosine-similarity.cpp]. Its literals and the comparison with
    [precision] are [double], that is binary64. *)
Module Test.

Definition double : Type := spec_float.

(** The [double] literal of the decimal [p / q], for integers below
    [2^53]. *)
Definition double_literal (p q : Z) : double :=
  SFdiv 53 1024 (binary_normalize 53 1024 p 0 false) (binary_normalize 53 1024 q 0 false).

(** Conversions between [double] and [float]. *)
Definition to_float (x : double) : float :=
  match x with
  | S754_finite s m e => binary_normalize F32.prec F32.emax (cond_Zopp s (Z.pos m)) e false
  | _ => x
  end.

Definition to_double (x : float) : double :=
  match x with
  | S754_finite s m e => binary_normalize 53 1024 (cond_Zopp s (Z.pos m)) e false
  | _ => x
  end.

Definition sub : float -> float -> float := SFsub F32.prec F32.emax.

Definition tests : list (float * (list float * list float)) :=
  [ (to_float (double_literal 1000000 1000000),
     ([F32.of_Z 0; F32.of_Z 1; F32.of_Z 2; F32.of_Z 3],
      [F32.of_Z 0; F32.of_Z 1; F32.of_Z 2; F32.of_Z 3]));
    (to_float (double_literal 956183 1000000),
     ([F32.of_Z 0; F32.of_Z 1; F32.of_Z 2; F32.of_Z 3],
      [F32.of_Z 0; F32.of_Z 0; F32.of_Z 1; F32.of_Z 2])) ].

(** The condition of the [assert] for one test. *)
Definition assertion (test : float * (list float * list float)) : outcome bool :=
  let '(expected_similarity, (embd_a, embd_b)) := test in
  similarity ← e4b_cosine_similarity embd_a embd_b 4;
  let precision := double_literal 1 1000 in
  Ret (SFleb (to_double (F32.abs (sub expected_similarity similarity))) precision).

(** [main]: whether the loop ends without a failed [assert]. *)
Definition main : outcome bool :=
  passed ← mapM assertion tests;
  Ret (forallb id passed).

End Test.

(** More data for runs: a query on the index of [a] and [b] with
    [top_n = 1], and an image whose bytes are all the digit 1. *)
Module Demo.

Definition first_a : e4b_query_result_entry :=
  {| idx := 0; entry := Run.entry_a; score := F32.dyadic 1 (-1) |}.

Definition top_1 : e4b_query_results :=
  {| results := ptr_to first_a; n_results := 1; total := 2 |}.

Definition rodata_ones (k : nat) : ascii := "1"%char.

Definition index_ab : e4b_context := Run.filled Run.two false Run.entry_a Run.entry_b.

End Demo.

(** * Statements *)

#[export] Instance float_inhabited : Inhabited float := populate F32.zero.

(** ** The signature, bit by bit *)

(** The value of [dot] when the inner loop of [e4b_lsh] is left: the
    products of the first [n_embd] components, added from the left. *)
Definition lsh_dot (embd row : list float) (n_embd : Z) : float :=
  fold_left (fun dot '(e, p) => F32.add dot (F32.mul e p))
    (zip (take (Z.to_nat n_embd) embd) (take (Z.to_nat n_embd) row)) F32.zero.

(** [(dot + offsets[i]) / (float) n_hash] *)
Definition lsh_value (ctx : e4b_context) (embd : list float) (n_embd : Z) (i : nat) : float :=
  let row := projections (lsh_ctx ctx) !!! i in
  let off := offsets (lsh_ctx ctx) !!! i in
  F32.div (F32.add (lsh_dot embd row n_embd) off) (F32.of_Z (n_hash (cparams ctx))).

(** The bit that [e4b_lsh] stores for a value [v]: [floor], then [abs], then
    the cast and the parity test. *)
Definition lsh_bit (v : float) : outcome Z :=
  hi ← F32.to_int (F32.abs (F32.floor v));
  Ret (if decide (Z.rem hi 2 = 1) then 1 else 0).

(** The bit in the words of the specification: the integer part of the
    magnitude, modulo 2. *)
Definition spec_lsh_bit (v : float) : outcome Z :=
  hi ← F32.to_int (F32.floor (F32.abs v));
  Ret (hi `mod` 2).

(** The projector has a row and an offset for each hash index, and the
    buffers hold the [n_embd] floats that [e4b_lsh] reads. *)
Definition lsh_ready (ctx : e4b_context) (embd : list float) (n_embd : Z) : Prop :=
  (Z.to_nat n_embd <= length embd)%nat /\
  forall i, (i < Z.to_nat (n_hash (cparams ctx)))%nat ->
    (exists row, projections (lsh_ctx ctx) !! i = Some row
                 /\ (Z.to_nat n_embd <= length row)%nat)
    /\ is_Some (offsets (lsh_ctx ctx) !! i).

(** ** Queries and reachable states *)

Section Statements.

Variable rodata : nat -> ascii.
Variable std_sort : list e4b_query_result_entry -> list e4b_query_result_entry.

(** The two statements that open [e4b_index] and [e4b_query]: the map key of
    an embedding. *)
Definition signature_key (ctx : e4b_context) (embd : list float) (n_embd : Z)
  : outcome string :=
  hash ← call_fn_hash ctx embd n_embd;
  e4b_internal_hash_to_key rodata hash (n_hash (cparams ctx)).

(** The candidate handles of a query: [bucket] in [e4b_query]. *)
Definition e4b_query_bucket (ctx : e4b_context) (q_embd : list float) (n_q_embd : Z)
  : outcome (list Z) :=
  key ← signature_key ctx q_embd n_q_embd;
  index_at (index ctx) key.

(** Two-stage selection in the words of the specification: the first
    [min(top_n, total)] candidates of the sorted order, then those of them
    whose score reaches the threshold. *)
Definition query_kept (sorted : list e4b_query_result_entry) (top_n : Z)
    (similarity : float) : list e4b_query_result_entry :=
  List.filter (fun r => F32.geb (score r) similarity)
    (take (Z.to_nat (Z.min top_n (Z.of_nat (length sorted)))) sorted).

(** No key of the bucket map has an empty sequence of handles. *)
Definition buckets_nonempty (m : gmap string (list Z)) : Prop :=
  forall key bucket, m !! key = Some bucket -> bucket <> [].

(** The result entries that the array [results] holds, in order. *)
Definition stored (results : list (option e4b_query_result_entry))
  : list e4b_query_result_entry :=
  omap id results.

Variable generator : Type.
Variable nd : generator -> float * generator.
Variable ud : Z -> generator -> float * generator.

(** The states of an index: what [e4b_init] returns, and what [e4b_index]
    leaves, whatever it returns. [e4b_query] takes a [const] context. *)
Inductive reachable : e4b_context -> Prop :=
  | reachable_init cparams gen ctx :
      e4b_init generator nd ud cparams gen = Ret ctx ->
      reachable ctx
  | reachable_index ctx text n_text embd ctx' r :
      reachable ctx ->
      e4b_index rodata ctx text n_text embd = Ret (ctx', r) ->
      reachable ctx'.

End Statements.

(** ** Keys, stores and projectors *)

(** The character that [e4b_internal_hash_to_key] leaves at position [i] of
    the key. *)
Definition key_char (rodata : nat -> ascii) (hash : list Z) (i : nat) : ascii :=
  if decide (hash !!! i > 0) then "1"%char else literal_0 rodata i.

(** Two hashes have their positive elements at the same places among the
    first [n]. *)
Definition same_signs (n : nat) (hash hash' : list Z) : Prop :=
  forall i, (i < n)%nat -> (hash !!! i > 0 <-> hash' !!! i > 0).

(** A float that is a zero of either sign, and one that is a zero or NaN. *)
Definition float_is_zero (x : float) : Prop :=
  match x with S754_zero _ => True | _ => False end.

Definition float_is_zero_or_nan (x : float) : Prop :=
  match x with S754_zero _ | S754_nan => True | _ => False end.

(** What a successful [e4b_index] of entry [e] under [key] makes of [ctx]. *)
Definition inserted (ctx : e4b_context) (key : string) (e : e4b_entry)
    (ctx' : e4b_context) : Prop :=
  cparams ctx' = cparams ctx
  /\ lsh_ctx ctx' = lsh_ctx ctx
  /\ index ctx' = index_push_back (index ctx) key (size ctx)
  /\ size ctx' = to_uint32 (size ctx + 1)
  /\ (Z.to_nat (size ctx) < length (entries ctx'))%nat
  /\ entries ctx' !! Z.to_nat (size ctx) = Some (Some e)
  /\ (forall i, (i < Z.to_nat (size ctx))%nat -> entries ctx' !! i = entries ctx !! i)
  /\ (capacity ctx <> size ctx /\ capacity ctx' = capacity ctx
      /\ length (entries ctx') = length (entries ctx)
      \/ capacity ctx = size ctx
         /\ use_persistent_storage (cparams ctx) = false
         /\ exists ratio,
              F32.to_uint32 (grow_ratio (cparams ctx)) = Ret ratio
              /\ capacity ctx' = to_uint32 (ratio * capacity ctx)
              /\ length (entries ctx') = Z.to_nat (capacity ctx')).

(** The store of an index: [size] within [capacity], an array of [capacity]
    slots of which the first [size] are occupied, and buckets whose handles
    are below [size] and no more than [size]. *)
Record store_ok (ctx : e4b_context) : Prop := {
  store_size : 0 <= size ctx <= capacity ctx;
  store_capacity : capacity ctx < 2 ^ 32;
  store_extent : length (entries ctx) = Z.to_nat (capacity ctx);
  store_occupied :
    forall i, (i < Z.to_nat (size ctx))%nat -> exists e, entries ctx !! i = Some (Some e);
  store_handles :
    forall key bucket h, index ctx !! key = Some bucket -> h ∈ bucket ->
                         0 <= to_uint32 h < size ctx;
  store_buckets :
    forall key bucket, index ctx !! key = Some bucket ->
                       Z.of_nat (length bucket) <= size ctx;
}.

(** No handle is twice in a bucket or in two buckets. *)
Definition handles_unique (m : gmap string (list Z)) : Prop :=
  (forall key bucket, m !! key = Some bucket -> NoDup bucket)
  /\ (forall key key' bucket bucket' h,
        m !! key = Some bucket -> m !! key' = Some bucket' ->
        h ∈ bucket -> h ∈ bucket' -> key = key').

(** The projector of an index: [n_hash] rows of [n_embd] floats and [n_embd]
    offsets, with no more hash bits than components. *)
Definition projector_ok (ctx : e4b_context) : Prop :=
  length (projections (lsh_ctx ctx)) = Z.to_nat (n_hash (cparams ctx))
  /\ Forall (fun row => length row = Z.to_nat (n_embd (cparams ctx)))
            (projections (lsh_ctx ctx))
  /\ length (offsets (lsh_ctx ctx)) = Z.to_nat (n_embd (cparams ctx))
  /\ (Z.to_nat (n_hash (cparams ctx)) <= Z.to_nat (n_embd (cparams ctx)))%nat.

(** The embedding of every handle holds [n_embd] floats. *)
Definition entries_long (ctx : e4b_context) : Prop :=
  forall i e, (i < Z.to_nat (size ctx))%nat -> entries ctx !! i = Some (Some e) ->
              (Z.to_nat (n_embd (cparams ctx)) <= length (embd e))%nat.

(** [later ctx ctx']: the index is in state [ctx'] after some calls of
    [e4b_index] from state [ctx]. *)
Inductive later (rodata : nat -> ascii) (ctx : e4b_context) : e4b_context -> Prop :=
  | later_now : later rodata ctx ctx
  | later_index ctx' text n_text embd ctx'' r :
      later rodata ctx ctx' ->
      e4b_index rodata ctx' text n_text embd = Ret (ctx'', r) ->
      later rodata ctx ctx''.

(** A call that raises no exception: it returns or is undefined. *)
Definition no_throw {A} (m : outcome A) : Prop := forall e, m <> Throw e.

(** The extents of a projector under construction. *)
Definition lsh_extents (n_hash n_embd : nat) (lsh : e4b_lsh_context) : Prop :=
  length (projections lsh) = n_hash
  /\ Forall (fun row => length row = n_embd) (projections lsh)
  /\ length (offsets lsh) = n_embd.

(** * Properties *)

(** ** Outcomes and loops *)

Lemma bind_Ret {A B} (m : outcome A) (k : A -> outcome B) (b : B) :
  m ≫= k = Ret b <-> exists a, m = Ret a /\ k a = Ret b.
Proof.
  split.
  - destruct m as [a| |]; simpl; intros H; try discriminate. by exists a.
  - intros (a & -> & H). exact H.
Qed.

Lemma bind_assoc {A B C} (m : outcome A) (k : A -> outcome B) (k' : B -> outcome C) :
  (m ≫= k) ≫= k' = m ≫= (fun a => k a ≫= k').
Proof. by destruct m. Qed.

Lemma bind_ext {A B} (m : outcome A) (k k' : A -> outcome B) :
  (forall a, k a = k' a) -> m ≫= k = m ≫= k'.
Proof. intros H. destruct m; simpl; auto. Qed.

Lemma mapM_Ret {A B} (f : A -> outcome B) (l : list A) (k : list B) :
  mapM f l = Ret k <-> Forall2 (fun x y => f x = Ret y) l k.
Proof.
  revert k. induction l as [|x l IH]; intros k; simpl.
  - split.
    + intros [= <-]. constructor.
    + by inversion 1.
  - split.
    + intros H. apply bind_Ret in H as (y & Hy & H).
      apply bind_Ret in H as (k' & Hk' & [= <-]).
      constructor; [done | by apply IH].
    + inversion 1 as [|? y ? k' Hy Hk']; subst.
      apply IH in Hk'. by rewrite Hy, Hk'.
Qed.

Lemma mapM_Ret_length {A B} (f : A -> outcome B) (l : list A) (k : list B) :
  mapM f l = Ret k -> length k = length l.
Proof. intros H. apply mapM_Ret in H. symmetry. by eapply Forall2_length. Qed.

(** The last iteration of a loop. *)
Lemma for_loop_from_snoc {S} (body : nat -> S -> outcome S) n :
  forall i s,
    for_loop_from i (Datatypes.S n) body s
    = for_loop_from i n body s ≫= body (i + n)%nat.
Proof.
  induction n as [|n IH]; intros i s.
  - simpl. rewrite Nat.add_0_r. by destruct (body i s).
  - change (for_loop_from i (Datatypes.S (Datatypes.S n)) body s)
      with (body i s ≫= for_loop_from (Datatypes.S i) (Datatypes.S n) body).
    change (for_loop_from i (Datatypes.S n) body s)
      with (body i s ≫= for_loop_from (Datatypes.S i) n body).
    rewrite bind_assoc. apply bind_ext. intros s'.
    rewrite IH. by replace (Datatypes.S i + n)%nat with (i + Datatypes.S n)%nat by lia.
Qed.

(** A loop with a state [st k] known after [k] iterations. *)
Lemma for_loop_steps {S} (body : nat -> S -> outcome S) (st : nat -> S) n :
  (forall k, (k < n)%nat -> body k (st k) = Ret (st (Datatypes.S k))) ->
  for_loop n body (st O) = Ret (st n).
Proof.
  unfold for_loop. induction n as [|n IH]; intros Hstep; [done|].
  rewrite for_loop_from_snoc, IH by (intros; apply Hstep; lia).
  simpl. apply Hstep. lia.
Qed.

(** A loop that assigns slot [i] of an array at iteration [i]. *)
Lemma for_loop_fill {A} (f : nat -> outcome A) (d : A) n :
  for_loop n (fun i a => f i ≫= write a i) (replicate n d) = mapM f (seq 0 n).
Proof.
  unfold for_loop.
  enough (forall k i pre, length pre = i ->
            for_loop_from i k (fun i a => f i ≫= write a i) (pre ++ replicate k d)
            = (fun l => pre ++ l) <$> mapM f (seq i k)) as H.
  { specialize (H n O [] eq_refl). simpl in H. rewrite H.
    by destruct (mapM f (seq 0 n)). }
  induction k as [|k IH]; intros i pre Hpre.
  - simpl. by rewrite app_nil_r.
  - simpl. destruct (f i) as [b| |]; simpl; try done.
    unfold write. rewrite decide_True by (rewrite length_app; simpl; lia).
    simpl.
    replace (<[i:=b]> (pre ++ d :: replicate k d)) with ((pre ++ [b]) ++ replicate k d).
    2:{ rewrite insert_app_r_alt by lia. rewrite Hpre, Nat.sub_diag. simpl.
        by rewrite <- app_assoc. }
    rewrite IH by (rewrite length_app; simpl; lia).
    destruct (mapM f (seq (Datatypes.S i) k)); simpl; try done.
    by rewrite <- app_assoc.
Qed.

Lemma for_loop_from_ext_in {S} (body body' : nat -> S -> outcome S) n :
  forall i,
    (forall j s, (i <= j < i + n)%nat -> body j s = body' j s) ->
    forall s, for_loop_from i n body s = for_loop_from i n body' s.
Proof.
  induction n as [|n IH]; intros i Hext s; simpl; [done|].
  rewrite Hext by lia. apply bind_ext. intros s'. apply IH.
  intros j s'' Hj. apply Hext. lia.
Qed.

Lemma for_loop_ext_in {S} (body body' : nat -> S -> outcome S) n s :
  (forall j s, (j < n)%nat -> body j s = body' j s) ->
  for_loop n body s = for_loop n body' s.
Proof. intros H. apply for_loop_from_ext_in. intros; apply H; lia. Qed.

Lemma read_Some {A} (a : list A) i x : a !! i = Some x -> read a i = Ret x.
Proof. unfold read. by intros ->. Qed.

(** ** The built-in hash *)

Lemma lsh_inner_loop (embd row : list float) (projs : list (list float)) (i : nat) (n : Z) :
  projs !! i = Some row ->
  (Z.to_nat n <= length embd)%nat ->
  (Z.to_nat n <= length row)%nat ->
  for_loop (Z.to_nat n) (fun j dot =>
      e ← read embd j; row ← read projs i; p ← read row j;
      Ret (F32.add dot (F32.mul e p))) F32.zero
  = Ret (lsh_dot embd row n).
Proof.
  intros Hrow He Hr. unfold lsh_dot.
  set (st := fun k : nat =>
         fold_left (fun dot '(e, p) => F32.add dot (F32.mul e p))
           (zip (take k embd) (take k row)) F32.zero).
  change F32.zero with (st O) at 1.
  apply (for_loop_steps _ st). intros k Hk.
  destruct (lookup_lt_is_Some_2 embd k) as [e Hek]; [lia|].
  destruct (lookup_lt_is_Some_2 row k) as [p Hpk]; [lia|].
  rewrite (read_Some _ _ _ Hek). simpl.
  rewrite (read_Some _ _ _ Hrow). simpl.
  rewrite (read_Some _ _ _ Hpk). simpl.
  unfold st. rewrite (take_S_r _ _ _ Hek), (take_S_r _ _ _ Hpk).
  rewrite zip_with_app by (rewrite !length_take; lia).
  by rewrite fold_left_app.
Qed.

(** C5, as the source has it. For every embedding and every context whose
    projector has a row and an offset per hash index, [e4b_lsh] returns, for
    each hash index [i] in turn, the parity of [|floor(v_i)|], where
    [v_i = (dot_i + offsets[i]) / n_hash] and [dot_i] is the dot product of
    the embedding with projection vector [i]: the floor is taken before the
    magnitude. The call is undefined exactly when one of these integers does
    not fit an [int]. *)
Theorem e4b_lsh_bits (ctx : e4b_context) (embd : list float) (n_embd : Z) :
  lsh_ready ctx embd n_embd ->
  e4b_lsh ctx embd n_embd
  = mapM (fun i => lsh_bit (lsh_value ctx embd n_embd i))
         (seq 0 (Z.to_nat (n_hash (cparams ctx)))).
Proof.
  intros [Hembd Hready]. unfold e4b_lsh.
  rewrite <- (for_loop_fill _ 0).
  apply for_loop_ext_in. intros i hash Hi.
  destruct (Hready i) as [(row & Hrow & Hlen) [off Hoff]]; [lia|].
  rewrite (lsh_inner_loop _ _ _ _ _ Hrow Hembd Hlen). simpl.
  rewrite (read_Some _ _ _ Hoff). simpl.
  unfold lsh_bit, lsh_value.
  rewrite (list_lookup_total_correct _ _ _ Hrow), (list_lookup_total_correct _ _ _ Hoff).
  by destruct (F32.to_int _).
Qed.

(** ** Selection of the results *)

Lemma to_uint32_small (z : Z) : 0 <= z < 2 ^ 32 -> to_uint32 z = z.
Proof. intros H. unfold to_uint32. by apply Z.mod_small. Qed.

Lemma filter_take_length {A} (f : A -> bool) (l : list A) (k : nat) :
  (length (List.filter f (take k l)) <= k)%nat.
Proof.
  etransitivity; [apply List.filter_length_le|]. rewrite length_take. lia.
Qed.

(** The selection loop keeps, in order, the entries of the first
    [min(top_n, total)] that pass the threshold, at the front of [results]. *)
Lemma e4b_query_select_spec (v : list e4b_query_result_entry) (top_n : Z) (thr : float) :
  0 <= top_n ->
  Z.of_nat (length v) < 2 ^ 32 ->
  let kept := query_kept v top_n thr in
  let capacity := Z.to_nat (Z.min top_n (Z.of_nat (length v))) in
  e4b_query_select v top_n thr
  = Ret ((Some <$> kept) ++ replicate (capacity - length kept) None,
         Z.of_nat (length kept), Z.of_nat (length v)).
Proof.
  intros Htop Hlen kept capacity. unfold e4b_query_select.
  rewrite to_uint32_small by lia. fold capacity.
  set (keep := fun r : e4b_query_result_entry => F32.geb (score r) thr).
  set (st := fun k : nat =>
         let kept_k := List.filter keep (take k v) in
         ((Some <$> kept_k) ++ replicate (capacity - length kept_k) None,
          Z.of_nat (length kept_k))).
  assert (Hcap : (capacity <= length v)%nat) by (unfold capacity; lia).
  assert (Hst0 : (replicate capacity None, 0) = st O).
  { unfold st. rewrite take_0. simpl. by rewrite Nat.sub_0_r. }
  rewrite Hst0.
  rewrite (for_loop_steps _ st).
  - simpl. unfold kept, query_kept. fold capacity. fold keep. done.
  - intros k Hk. unfold st at 1. cbv zeta.
    destruct (lookup_lt_is_Some_2 v k) as [r Hr]; [lia|].
    rewrite (read_Some _ _ _ Hr). simpl.
    pose proof (filter_take_length keep v k) as Hle.
    unfold st. cbv zeta. rewrite (take_S_r _ _ _ Hr), List.filter_app. simpl.
    fold (keep r). destruct (keep r).
    + unfold write. rewrite Nat2Z.id.
      rewrite decide_True
        by (rewrite length_app, length_fmap, length_replicate; lia).
      simpl. rewrite to_uint32_small by lia.
      rewrite length_app. simpl. f_equal. f_equal; [|lia].
      rewrite insert_app_r_alt by (rewrite length_fmap; lia).
      rewrite length_fmap, Nat.sub_diag.
      replace (capacity - length (List.filter keep (take k v)))%nat
        with (Datatypes.S (capacity - (length (List.filter keep (take k v)) + 1)))%nat
        by lia.
      simpl. rewrite fmap_app. simpl. by rewrite <- app_assoc.
    + simpl. by rewrite app_nil_r.
Qed.

Lemma stored_front (kept : list e4b_query_result_entry) (n : nat) :
  stored ((Some <$> kept) ++ replicate n None) = kept.
Proof.
  unfold stored. induction kept as [|r kept IH].
  - induction n; simpl; auto.
  - change (r :: omap id ((Some <$> kept) ++ replicate n None) = r :: kept).
    by f_equal.
Qed.

Section Query.

Variable rodata : nat -> ascii.
Variable std_sort : list e4b_query_result_entry -> list e4b_query_result_entry.
Hypothesis std_sort_perm : forall l, std_sort l ≡ₚ l.

Lemma e4b_query_array_bucket ctx q_embd n_q_embd top_n similarity :
  e4b_query_array rodata std_sort ctx q_embd n_q_embd top_n similarity
  = (bucket ← e4b_query_bucket rodata ctx q_embd n_q_embd;
     if decide (bucket = [])
     then Ret ([], {| results := null_ptr; n_results := 0; total := 0 |})
     else
       v_results ← mapM (e4b_query_score ctx q_embd) bucket;
       '(results, n_results, total) ←
         e4b_query_select (std_sort v_results) top_n similarity;
       first ← deref_results results;
       Ret (results,
            {| results := first; n_results := n_results; total := total |})).
Proof.
  unfold e4b_query_array, e4b_query_bucket, signature_key.
  by rewrite !bind_assoc.
Qed.

End Query.

(** ** Inserts *)

(** [e4b_lsh] reads the first [n_embd] floats of the buffer and no other. *)
Lemma e4b_lsh_take (ctx : e4b_context) (embd : list float) (n_embd : Z) :
  e4b_lsh ctx (take (Z.to_nat n_embd) embd) n_embd = e4b_lsh ctx embd n_embd.
Proof.
  unfold e4b_lsh. apply for_loop_ext_in. intros i hash _.
  f_equal. apply for_loop_ext_in. intros j dot Hj.
  unfold read. by rewrite lookup_take_lt by lia.
Qed.

Section Index.

Variable rodata : nat -> ascii.

Lemma signature_key_take (ctx : e4b_context) (embd : list float) (n_embd : Z) :
  fn_hash (cparams ctx) = builtin_lsh ->
  signature_key rodata ctx (take (Z.to_nat n_embd) embd) n_embd
  = signature_key rodata ctx embd n_embd.
Proof.
  intros Hfn. unfold signature_key, call_fn_hash. rewrite Hfn.
  by rewrite e4b_lsh_take.
Qed.

Lemma e4b_index_key ctx text n_text embd key :
  signature_key rodata ctx embd (n_embd (cparams ctx)) = Ret key ->
  e4b_index rodata ctx text n_text embd
  = ('(ctx, grown) ← (if decide (capacity ctx = size ctx)
                      then e4b_internal_grow ctx else Ret (ctx, true));
     if negb grown then Ret (ctx, to_uint32 (-1))
     else
       let idx := size ctx in
       entries' ← write (entries ctx) (Z.to_nat idx)
                    (Some {| text := text; embd := embd; n_text := n_text |});
       let ctx := with_store ctx entries' (to_uint32 (size ctx + 1)) (capacity ctx) in
       Ret (with_index ctx (index_push_back (index ctx) key idx), idx)).
Proof.
  intros Hkey. unfold signature_key in Hkey.
  apply bind_Ret in Hkey as (hash & Hhash & Hkey).
  unfold e4b_index. rewrite Hhash. simpl. rewrite Hkey. done.
Qed.

(** C7. In an index with [use_persistent_storage] set and a full store
    ([size == capacity]), an insert whose embedding is hashed returns
    [(uint32_t) -1] and leaves the context as it was: [size], [capacity], the
    entry array and the bucket map. *)
Theorem e4b_index_persistent_full ctx text n_text embd key :
  use_persistent_storage (cparams ctx) = true ->
  capacity ctx = size ctx ->
  signature_key rodata ctx embd (n_embd (cparams ctx)) = Ret key ->
  e4b_index rodata ctx text n_text embd = Ret (ctx, 4294967295).
Proof.
  intros Hpersistent Hfull Hkey.
  rewrite (e4b_index_key _ _ _ _ _ Hkey).
  rewrite decide_True by done.
  unfold e4b_internal_grow. rewrite Hpersistent. done.
Qed.

(** C4, as the source has it. Neither [e4b_index] nor [e4b_query] compares a
    length with [n_embd]. With the built-in hash, an insert whose buffer holds
    more than [n_embd] floats is hashed on the first [n_embd] of them and,
    when the store has a free slot, succeeds: it returns the next handle,
    stores the caller's buffer, increments [size] and appends the handle to
    the bucket. The candidates of a query are likewise those of the first
    [n_q_embd] floats of its buffer. *)
Theorem e4b_index_no_dimension_guard ctx text n_text embd key :
  fn_hash (cparams ctx) = builtin_lsh ->
  (Z.to_nat (n_embd (cparams ctx)) < length embd)%nat ->
  signature_key rodata ctx (take (Z.to_nat (n_embd (cparams ctx))) embd)
    (n_embd (cparams ctx)) = Ret key ->
  capacity ctx <> size ctx ->
  (Z.to_nat (size ctx) < length (entries ctx))%nat ->
  e4b_index rodata ctx text n_text embd
  = Ret ({| cparams := cparams ctx;
            index := index_push_back (index ctx) key (size ctx);
            lsh_ctx := lsh_ctx ctx;
            entries := <[Z.to_nat (size ctx) :=
                           Some {| text := text; embd := embd; n_text := n_text |}]>
                         (entries ctx);
            size := to_uint32 (size ctx + 1);
            capacity := capacity ctx |}, size ctx)
  /\ forall n_q_embd,
       e4b_query_bucket rodata ctx embd n_q_embd
       = e4b_query_bucket rodata ctx (take (Z.to_nat n_q_embd) embd) n_q_embd.
Proof.
  intros Hfn Hlong Hkey Hroom Hslot. split.
  - rewrite signature_key_take in Hkey by done.
    rewrite (e4b_index_key _ _ _ _ _ Hkey).
    rewrite decide_False by done. simpl.
    unfold write. rewrite decide_True by done. done.
  - intros n_q_embd. unfold e4b_query_bucket.
    by rewrite signature_key_take.
Qed.

End Index.

(** ** The bucket map *)

Lemma index_push_back_nonempty m key idx :
  buckets_nonempty m -> buckets_nonempty (index_push_back m key idx).
Proof.
  intros Hm key' bucket. unfold index_push_back.
  destruct (decide (key = key')) as [<-|Hne].
  - rewrite lookup_insert_eq. intros [= <-].
    by destruct (default [] (m !! key)).
  - rewrite lookup_insert_ne by done. apply Hm.
Qed.

Lemma e4b_internal_grow_index ctx ctx' grown :
  e4b_internal_grow ctx = Ret (ctx', grown) -> index ctx' = index ctx.
Proof.
  unfold e4b_internal_grow.
  destruct (use_persistent_storage (cparams ctx)).
  - by intros [= <- _].
  - intros H. apply bind_Ret in H as (ratio & _ & H).
    apply bind_Ret in H as (entries' & _ & H).
    by injection H as <- _.
Qed.

Section Reach.

Variable rodata : nat -> ascii.
Variable std_sort : list e4b_query_result_entry -> list e4b_query_result_entry.
Variable generator : Type.
Variable nd : generator -> float * generator.
Variable ud : Z -> generator -> float * generator.

Lemma e4b_init_index cparams gen ctx :
  e4b_init generator nd ud cparams gen = Ret ctx -> index ctx = ∅.
Proof.
  unfold e4b_init. intros H.
  apply bind_Ret in H as ([lsh gen'] & _ & H). by injection H as <-.
Qed.

Lemma e4b_index_buckets ctx text n_text embd ctx' r :
  e4b_index rodata ctx text n_text embd = Ret (ctx', r) ->
  buckets_nonempty (index ctx) -> buckets_nonempty (index ctx').
Proof.
  unfold e4b_index. intros H Hm.
  apply bind_Ret in H as (hash & _ & H).
  apply bind_Ret in H as (key & _ & H).
  apply bind_Ret in H as ([ctx1 grown] & Hgrow & H).
  assert (Hindex : index ctx1 = index ctx).
  { destruct (decide (capacity ctx = size ctx)).
    - by eapply e4b_internal_grow_index.
    - by injection Hgrow as <- _. }
  destruct grown; simpl in H.
  - apply bind_Ret in H as (entries' & _ & H). injection H as <- _.
    simpl. rewrite Hindex. by apply index_push_back_nonempty.
  - injection H as <- _. by rewrite Hindex.
Qed.

(** A query that throws on a key which the map does not have. *)
Lemma e4b_query_miss ctx q_embd n_q_embd top_n similarity key :
  signature_key rodata ctx q_embd n_q_embd = Ret key ->
  index ctx !! key = None ->
  e4b_query rodata std_sort ctx q_embd n_q_embd top_n similarity = Throw out_of_range.
Proof.
  intros Hkey Hmiss. unfold e4b_query, e4b_query_array.
  unfold signature_key in Hkey. apply bind_Ret in Hkey as (hash & -> & Hkey).
  simpl. rewrite Hkey. simpl. unfold index_at. by rewrite Hmiss.
Qed.

(** C10. In every state of an index (after [e4b_init] and any number of
    [e4b_index] calls), each key of the bucket map has a non-empty sequence
    of handles; so a query whose key is in the map has a non-empty [bucket],
    and its test [bucket.empty()] is false. *)
Theorem reachable_buckets_nonempty ctx :
  reachable rodata generator nd ud ctx ->
  (forall key bucket, index ctx !! key = Some bucket -> bucket <> [])
  /\ (forall q_embd n_q_embd bucket,
        e4b_query_bucket rodata ctx q_embd n_q_embd = Ret bucket -> bucket <> []).
Proof.
  intros Hreach.
  assert (Hm : buckets_nonempty (index ctx)).
  { induction Hreach as [cparams gen ctx Hinit|ctx text n_text embd ctx' r _ IH Hindex].
    - rewrite (e4b_init_index _ _ _ Hinit). intros key bucket.
      by rewrite lookup_empty.
    - by eapply e4b_index_buckets. }
  split; [exact Hm|].
  intros q_embd n_q_embd bucket H. unfold e4b_query_bucket in H.
  apply bind_Ret in H as (key & _ & H). unfold index_at in H.
  destruct (index ctx !! key) as [bucket'|] eqn:Hlookup; [|done].
  injection H as <-. by eapply Hm.
Qed.

End Reach.

(** ** Scores *)

(** The score of a candidate does not depend on the candidate: it is
    [1 / (1 + s)] for the similarity [s] of the query and the embedding of
    the entry in slot 0. *)
Lemma e4b_query_score_first ctx q_embd idx r :
  e4b_query_score ctx q_embd idx = Ret r ->
  exists entries0 s,
    entries ctx !! 0%nat = Some (Some entries0)
    /\ call_fn_similarity ctx q_embd (embd entries0) (n_embd (cparams ctx)) = Ret s
    /\ score r = F32.div (F32.of_Z 1) (F32.add (F32.of_Z 1) s).
Proof.
  unfold e4b_query_score, read_entry, read. intros H.
  apply bind_Ret in H as (e & _ & H).
  apply bind_Ret in H as (entries0 & H0 & H).
  apply bind_Ret in H as (s & Hs & H).
  exists entries0, s. repeat split; [|done|by injection H as <-].
  destruct (entries ctx !! 0%nat) as [[e0|]|]; simpl in H0; try done.
  by injection H0 as ->.
Qed.

Lemma e4b_query_score_same ctx q_embd idx idx' r r' :
  e4b_query_score ctx q_embd idx = Ret r ->
  e4b_query_score ctx q_embd idx' = Ret r' ->
  score r = score r'.
Proof.
  intros H H'.
  apply e4b_query_score_first in H as (e & s & He & Hs & ->).
  apply e4b_query_score_first in H' as (e' & s' & He' & Hs' & ->).
  congruence.
Qed.

(** ** The store and the projector *)

Lemma for_loop_from_inv {S} (P : nat -> S -> Prop) (body : nat -> S -> outcome S) n :
  forall i s s',
    (forall j t t', (i <= j < i + n)%nat -> P j t -> body j t = Ret t' ->
                    P (Datatypes.S j) t') ->
    P i s ->
    for_loop_from i n body s = Ret s' ->
    P (i + n)%nat s'.
Proof.
  induction n as [|n IH]; intros i s s' Hstep Hs H; simpl in H.
  - injection H as <-. by rewrite Nat.add_0_r.
  - apply bind_Ret in H as (t & Ht & H).
    replace (i + Datatypes.S n)%nat with (Datatypes.S i + n)%nat by lia.
    eapply IH; [|eapply (Hstep i); [lia|done..]|done].
    intros j u u' Hj. apply Hstep. lia.
Qed.

Lemma write_Ret {A} (a a' : list A) i x :
  write a i x = Ret a' -> (i < length a)%nat /\ a' = <[i := x]> a.
Proof. unfold write. case_decide; [|done]. by intros [= <-]. Qed.

(** What [e4b_internal_grow] leaves when it grows the store: the capacity is
    the product of the old one and of the truncated ratio, modulo [2^32], and
    the occupied slots are copied. *)
Lemma e4b_internal_grow_spec ctx ctx' :
  e4b_internal_grow ctx = Ret (ctx', true) ->
  exists ratio,
    F32.to_uint32 (grow_ratio (cparams ctx)) = Ret ratio
    /\ capacity ctx' = to_uint32 (ratio * capacity ctx)
    /\ size ctx' = size ctx
    /\ length (entries ctx') = Z.to_nat (capacity ctx')
    /\ (Z.to_nat (size ctx) <= length (entries ctx'))%nat
    /\ forall i, (i < Z.to_nat (size ctx))%nat -> entries ctx' !! i = entries ctx !! i.
Proof.
  unfold e4b_internal_grow.
  destruct (use_persistent_storage (cparams ctx)); [done|]. intros H.
  apply bind_Ret in H as (ratio & Hratio & H).
  apply bind_Ret in H as (entries' & Hcopy & H). injection H as <-.
  exists ratio. simpl. split; [done|]. split; [done|]. split; [done|].
  set (n := Z.to_nat (to_uint32 (ratio * capacity ctx))) in *.
  pose (P := fun (k : nat) (a : list (option e4b_entry)) =>
               length a = n /\ (k <= n \/ k = O)%nat
               /\ forall i, (i < k)%nat -> a !! i = entries ctx !! i).
  assert (HP : P (0 + Z.to_nat (size ctx))%nat entries').
  { eapply (for_loop_from_inv P); [| |exact Hcopy].
    - intros j a a' _ (Hlen & _ & Hpre) Hbody.
      apply bind_Ret in Hbody as (e & He & Hw).
      apply write_Ret in Hw as [Hj ->].
      unfold read in He. destruct (entries ctx !! j) as [e'|] eqn:Hj'; [|done].
      injection He as ->.
      split; [by rewrite length_insert|]. split; [lia|].
      intros i Hi. destruct (decide (i = j)) as [->|Hne].
      + by rewrite list_lookup_insert_eq.
      + rewrite list_lookup_insert_ne by done. apply Hpre. lia.
    - split; [by rewrite length_replicate|]. split; [lia|]. intros; lia. }
  destruct HP as (Hlen & Hle & Hpre). simpl in Hle.
  split; [done|]. split; [lia|done].
Qed.

Section Projector.

Variable rodata : nat -> ascii.
Variable generator : Type.
Variable nd : generator -> float * generator.
Variable ud : Z -> generator -> float * generator.

(** The extents of the projector that [e4b_init] builds: [n_hash] projection
    vectors, and [n_embd] offsets. *)
Lemma e4b_init_extents cparams gen ctx :
  e4b_init generator nd ud cparams gen = Ret ctx ->
  length (projections (lsh_ctx ctx)) = Z.to_nat (n_hash cparams)
  /\ length (offsets (lsh_ctx ctx)) = Z.to_nat (n_embd cparams).
Proof.
  unfold e4b_init. intros H.
  apply bind_Ret in H as ([lsh gen'] & Hloop & H). injection H as <-. simpl.
  pose (P := fun (_ : nat) (s : e4b_lsh_context * generator) =>
               length (projections s.1) = Z.to_nat (n_hash cparams)
               /\ length (offsets s.1) = Z.to_nat (n_embd cparams)).
  enough (HP : P (0 + Z.to_nat (n_hash cparams))%nat (lsh, gen')) by exact HP.
  eapply (for_loop_from_inv P); [| |exact Hloop].
  - intros i [lsh1 g1] [lsh3 g3] _ HP1 Hbody.
    apply bind_Ret in Hbody as ([lsh2 g2] & Hinner & Hbody).
    assert (HP2 : P (0 + Z.to_nat (n_embd cparams))%nat (lsh2, g2)).
    { eapply (for_loop_from_inv P); [| |exact Hinner]; [|exact HP1].
      intros j [lsh4 g4] [lsh5 g5] _ [Hp Ho] Hstep.
      destruct (nd g4) as [x g4'].
      apply bind_Ret in Hstep as (row & _ & Hstep).
      apply bind_Ret in Hstep as (row' & _ & Hstep).
      apply bind_Ret in Hstep as (projections' & Hw & Hstep).
      apply write_Ret in Hw as [_ ->]. injection Hstep as <- _.
      split; simpl; [by rewrite length_insert|done]. }
    destruct HP2 as [Hp Ho]. simpl in Hp, Ho.
    destruct (ud (n_hash cparams) g2) as [x g2'].
    apply bind_Ret in Hbody as (offsets' & Hw & Hbody).
    apply write_Ret in Hw as [_ ->]. injection Hbody as <- _.
    split; simpl; [done|by rewrite length_insert].
  - split; simpl; by rewrite length_replicate.
Qed.

(** The projector and the parameters are those of [e4b_init] for the
    lifetime of the index: [e4b_index] leaves them as they are. *)
Lemma e4b_index_lsh_ctx ctx text n_text embd ctx' r :
  e4b_index rodata ctx text n_text embd = Ret (ctx', r) ->
  lsh_ctx ctx' = lsh_ctx ctx /\ cparams ctx' = cparams ctx.
Proof.
  unfold e4b_index. intros H.
  apply bind_Ret in H as (hash & _ & H).
  apply bind_Ret in H as (key & _ & H).
  apply bind_Ret in H as ([ctx1 grown] & Hgrow & H).
  assert (H1 : lsh_ctx ctx1 = lsh_ctx ctx /\ cparams ctx1 = cparams ctx).
  { destruct (decide (capacity ctx = size ctx)); [|by injection Hgrow as <- _].
    unfold e4b_internal_grow in Hgrow.
    destruct (use_persistent_storage (cparams ctx)); [by injection Hgrow as <- _|].
    apply bind_Ret in Hgrow as (ratio & _ & Hgrow).
    apply bind_Ret in Hgrow as (entries' & _ & Hgrow).
    by injection Hgrow as <- _. }
  destruct grown; simpl in H.
  - apply bind_Ret in H as (entries' & _ & H). by injection H as <- _.
  - by injection H as <- _.
Qed.

End Projector.

(** ** Runs on a small index *)

Lemma linear_insert_perm x l : Run.linear_insert x l ≡ₚ x :: l.
Proof.
  induction l as [|y l IH]; simpl; [done|].
  destruct (F32.gtb (score x) (score y)); [done|].
  rewrite IH. apply perm_swap.
Qed.

Lemma run_std_sort_perm l : Run.std_sort l ≡ₚ l.
Proof.
  unfold Run.std_sort.
  enough (forall sorted, fold_left (fun sorted x => Run.linear_insert x sorted) l sorted
                         ≡ₚ sorted ++ l) as H by apply (H []).
  induction l as [|x l IH]; intros sorted; simpl.
  - by rewrite app_nil_r.
  - rewrite IH, linear_insert_perm. simpl. apply Permutation_middle.
Qed.

Lemma run_init ratio persistent :
  e4b_init Run.generator Run.nd Run.ud (Run.params ratio persistent) Run.gen0
  = Ret (Run.fresh ratio persistent).
Proof. vm_compute. reflexivity. Qed.

Lemma run_index_a ratio persistent :
  e4b_index Run.rodata (Run.fresh ratio persistent) "a" 1 Run.embd_a
  = Ret (Run.one_entry ratio persistent Run.entry_a, 0).
Proof. vm_compute. reflexivity. Qed.

Lemma run_index_a_b ratio persistent :
  e4b_index Run.rodata (Run.one_entry ratio persistent Run.entry_a) "b" 1 Run.embd_b
  = Ret (Run.filled ratio persistent Run.entry_a Run.entry_b, 1).
Proof. vm_compute. reflexivity. Qed.

Lemma run_index_b ratio persistent :
  e4b_index Run.rodata (Run.fresh ratio persistent) "b" 1 Run.embd_b
  = Ret (Run.one_entry ratio persistent Run.entry_b, 0).
Proof. vm_compute. reflexivity. Qed.

Lemma run_index_b_a ratio persistent :
  e4b_index Run.rodata (Run.one_entry ratio persistent Run.entry_b) "a" 1 Run.embd_a
  = Ret (Run.filled ratio persistent Run.entry_b Run.entry_a, 1).
Proof. vm_compute. reflexivity. Qed.

Lemma run_reachable ratio persistent :
  reachable Run.rodata Run.generator Run.nd Run.ud
    (Run.filled ratio persistent Run.entry_a Run.entry_b).
Proof.
  eapply reachable_index; [|apply run_index_a_b].
  eapply reachable_index; [|apply run_index_a].
  eapply reachable_init, run_init.
Qed.

(** The cosine similarity of the query [a] with [a] and with [b]: about
    0.99999994 and 0.956. *)
Lemma run_cosine :
  e4b_cosine_similarity Run.embd_a Run.embd_a 4 = Ret (F32.dyadic 16777215 (-24))
  /\ e4b_cosine_similarity Run.embd_a Run.embd_b 4 = Ret (F32.dyadic 16042085 (-24)).
Proof. split; vm_compute; reflexivity. Qed.

(** C1, evaluated. The index holds [a] in slot 0 and [b] in slot 1, in one
    bucket; the query is the embedding of [a]. The entry returned for handle 1
    has the score 0.5, which is [1 / (1 + s)] for the similarity [s] of the
    query with the embedding in slot 0, while the similarity of the query
    with the embedding of handle 1 is about 0.956. *)
Theorem e4b_query_scores_slot_0 :
  e4b_query_array Run.rodata Run.std_sort
    (Run.filled Run.two false Run.entry_a Run.entry_b) Run.embd_a 4 2 F32.zero
  = Ret ([Some {| idx := 0; entry := Run.entry_a; score := F32.dyadic 1 (-1) |};
          Some {| idx := 1; entry := Run.entry_b; score := F32.dyadic 1 (-1) |}],
         {| results := ptr_to {| idx := 0; entry := Run.entry_a;
                                 score := F32.dyadic 1 (-1) |};
            n_results := 2; total := 2 |})
  /\ e4b_cosine_similarity Run.embd_a (embd Run.entry_b) 4
     = Ret (F32.dyadic 16042085 (-24))
  /\ F32.div (F32.of_Z 1) (F32.add (F32.of_Z 1) (F32.dyadic 16777215 (-24)))
     = F32.dyadic 1 (-1).
Proof. repeat split; vm_compute; reflexivity. Qed.

(** C2, evaluated. The index holds [b] in slot 0 and [a] in slot 1, in one
    bucket; the query is the embedding of [a]. Both entries get the score
    [1 / (1 + 0.956)], about 0.511, and [b] is returned before [a], although
    the similarity of the query with [b] (0.956) is less than with [a]
    (0.99999994). *)
Theorem e4b_query_order_not_by_similarity :
  e4b_query_array Run.rodata Run.std_sort
    (Run.filled Run.two false Run.entry_b Run.entry_a) Run.embd_a 4 2 F32.zero
  = Ret ([Some {| idx := 0; entry := Run.entry_b; score := F32.dyadic 8576508 (-24) |};
          Some {| idx := 1; entry := Run.entry_a; score := F32.dyadic 8576508 (-24) |}],
         {| results := ptr_to {| idx := 0; entry := Run.entry_b;
                                 score := F32.dyadic 8576508 (-24) |};
            n_results := 2; total := 2 |})
  /\ e4b_cosine_similarity Run.embd_a (embd Run.entry_b) 4
     = Ret (F32.dyadic 16042085 (-24))
  /\ e4b_cosine_similarity Run.embd_a (embd Run.entry_a) 4
     = Ret (F32.dyadic 16777215 (-24))
  /\ F32.geb (F32.dyadic 16042085 (-24)) (F32.dyadic 16777215 (-24)) = false
  /\ F32.div (F32.of_Z 1) (F32.add (F32.of_Z 1) (F32.dyadic 16042085 (-24)))
     = F32.dyadic 8576508 (-24).
Proof. repeat split; vm_compute; reflexivity. Qed.

(** C3, evaluated. A query on an index without any insert, and a query whose
    signature [1] is not a key of an index that holds the signature [0],
    both throw [std::out_of_range]. *)
Theorem e4b_query_miss_throws :
  e4b_query Run.rodata Run.std_sort (Run.fresh Run.two false) Run.embd_a 4 2 F32.zero
  = Throw out_of_range
  /\ signature_key Run.rodata (Run.filled Run.two false Run.entry_a Run.entry_b)
       [Run.f 0; Run.f 0; Run.f 4; Run.f 0] 4 = Ret "1"
  /\ index (Run.filled Run.two false Run.entry_a Run.entry_b) !! "1" = None
  /\ e4b_query Run.rodata Run.std_sort (Run.filled Run.two false Run.entry_a Run.entry_b)
       [Run.f 0; Run.f 0; Run.f 4; Run.f 0] 4 2 F32.zero
     = Throw out_of_range.
Proof. repeat split; vm_compute; reflexivity. Qed.

(** C4 fails: with [n_embd = 4], the insert of a buffer of five floats into
    an empty index returns handle 0 and leaves an index of size 1 that holds
    the five floats; and a query with [n_q_embd = 2] returns two results. *)
Lemma dimension_guard_counterexample :
  n_embd (cparams (Run.fresh Run.two false)) = 4
  /\ length (Run.embd_b ++ [Run.f 7]) = 5%nat
  /\ e4b_index Run.rodata (Run.fresh Run.two false) "b" 1 (Run.embd_b ++ [Run.f 7])
     = Ret (Run.one_entry Run.two false
              {| text := "b"; embd := Run.embd_b ++ [Run.f 7]; n_text := 1 |}, 0)
  /\ size (Run.one_entry Run.two false
             {| text := "b"; embd := Run.embd_b ++ [Run.f 7]; n_text := 1 |}) = 1
  /\ n_results <$> e4b_query Run.rodata Run.std_sort
                     (Run.filled Run.two false Run.entry_a Run.entry_b)
                     Run.embd_a 2 2 F32.zero
     = Ret 2.
Proof. repeat split; vm_compute; reflexivity. Qed.

(** The insert of five floats, by the theorem. *)
Lemma e4b_index_no_dimension_guard_witness :
  e4b_index Run.rodata (Run.fresh Run.two false) "b" 1 (Run.embd_b ++ [Run.f 7])
  = Ret ({| cparams := Run.params Run.two false;
            index := index_push_back ∅ "0" 0;
            lsh_ctx := Run.projector;
            entries := <[0%nat := Some {| text := "b"; embd := Run.embd_b ++ [Run.f 7];
                                          n_text := 1 |}]> [None; None];
            size := to_uint32 (0 + 1);
            capacity := 2 |}, 0)
  /\ forall n_q_embd,
       e4b_query_bucket Run.rodata (Run.fresh Run.two false)
         (Run.embd_b ++ [Run.f 7]) n_q_embd
       = e4b_query_bucket Run.rodata (Run.fresh Run.two false)
           (take (Z.to_nat n_q_embd) (Run.embd_b ++ [Run.f 7])) n_q_embd.
Proof.
  apply (e4b_index_no_dimension_guard Run.rodata (Run.fresh Run.two false) "b" 1
           (Run.embd_b ++ [Run.f 7]) "0").
  - reflexivity.
  - simpl. lia.
  - vm_compute. reflexivity.
  - simpl. lia.
  - simpl. lia.
Defined.

(** C5 fails: with the projection vector [(0, 0, 0.25, 0)], the offset 0.25
    and one hash bit, the embedding [(0, 0, -3, 0)] has [v_0 = -0.5];
    [e4b_lsh] returns the bit 1, the parity of [|floor(-0.5)| = 1], while
    [floor(|-0.5|) mod 2] is 0. *)
Lemma lsh_bit_counterexample :
  lsh_value (Run.fresh Run.two false) [Run.f 0; Run.f 0; Run.f (-3); Run.f 0] 4 0
  = F32.dyadic (-1) (-1)
  /\ e4b_lsh (Run.fresh Run.two false) [Run.f 0; Run.f 0; Run.f (-3); Run.f 0] 4
     = Ret [1]
  /\ mapM (fun i => spec_lsh_bit
                      (lsh_value (Run.fresh Run.two false)
                         [Run.f 0; Run.f 0; Run.f (-3); Run.f 0] 4 i))
          (seq 0 (Z.to_nat (n_hash (cparams (Run.fresh Run.two false)))))
     = Ret [0].
Proof. repeat split; vm_compute; reflexivity. Qed.

(** The same embedding, by the theorem. *)
Lemma e4b_lsh_bits_witness :
  e4b_lsh (Run.fresh Run.two false) [Run.f 0; Run.f 0; Run.f (-3); Run.f 0] 4
  = mapM (fun i => lsh_bit (lsh_value (Run.fresh Run.two false)
                              [Run.f 0; Run.f 0; Run.f (-3); Run.f 0] 4 i))
         (seq 0 (Z.to_nat (n_hash (cparams (Run.fresh Run.two false))))).
Proof.
  apply e4b_lsh_bits. split; [simpl; lia|].
  intros i Hi. destruct i as [|i]; [|simpl in Hi; lia].
  split; [|by eexists].
  eexists. split; [reflexivity|]. simpl. lia.
Defined.

(** C6, evaluated. With one hash bit and [n_embd = 4], [e4b_init] leaves a
    projector with four offsets, of which the first is drawn and the others
    are the zeros of the allocation; with three hash bits and [n_embd = 2],
    the third offset is written past the end of the two allocated. *)
Theorem e4b_init_offsets_by_n_embd :
  e4b_init Run.generator Run.nd Run.ud (Run.params Run.two false) Run.gen0
  = Ret (Run.fresh Run.two false)
  /\ n_hash (Run.params Run.two false) = 1
  /\ offsets (lsh_ctx (Run.fresh Run.two false))
     = [Run.quarter; F32.zero; F32.zero; F32.zero]
  /\ n_hash Run.params_3_2 = 3
  /\ n_embd Run.params_3_2 = 2
  /\ e4b_init Run.generator Run.nd Run.ud Run.params_3_2 Run.gen0
     = Undef buffer_overrun.
Proof. repeat split; vm_compute; reflexivity. Qed.

(** An insert into a full index with persistent storage. *)
Lemma e4b_index_persistent_full_witness :
  e4b_index Run.rodata (Run.filled Run.two true Run.entry_a Run.entry_b) "b" 1 Run.embd_b
  = Ret (Run.filled Run.two true Run.entry_a Run.entry_b, 4294967295).
Proof.
  apply (e4b_index_persistent_full Run.rodata _ "b" 1 Run.embd_b "0").
  - reflexivity.
  - reflexivity.
  - vm_compute. reflexivity.
Defined.


(** C9, evaluated. With [grow_ratio = 1.5] and a full store of capacity 2,
    [(uint32_t) grow_ratio] is 1: [e4b_internal_grow] allocates two slots
    again and reports success, and the insert that follows writes slot 2 of
    that array. *)
Theorem e4b_internal_grow_truncates_ratio :
  F32.to_uint32 (grow_ratio (Run.params Run.three_halves false)) = Ret 1
  /\ e4b_internal_grow (Run.filled Run.three_halves false Run.entry_a Run.entry_b)
     = Ret (Run.filled Run.three_halves false Run.entry_a Run.entry_b, true)
  /\ capacity (Run.filled Run.three_halves false Run.entry_a Run.entry_b) = 2
  /\ e4b_index Run.rodata (Run.filled Run.three_halves false Run.entry_a Run.entry_b)
       "b" 1 Run.embd_b
     = Undef buffer_overrun.
Proof. repeat split; vm_compute; reflexivity. Qed.

(** The index after [e4b_init] and two inserts. *)
Lemma reachable_buckets_nonempty_witness :
  (forall key bucket,
     index (Run.filled Run.two false Run.entry_a Run.entry_b) !! key = Some bucket ->
     bucket <> [])
  /\ (forall q_embd n_q_embd bucket,
        e4b_query_bucket Run.rodata (Run.filled Run.two false Run.entry_a Run.entry_b)
          q_embd n_q_embd = Ret bucket ->
        bucket <> []).
Proof.
  apply (reachable_buckets_nonempty Run.rodata Run.generator Run.nd Run.ud).
  eapply (reachable_index _ _ _ _ (Run.one_entry Run.two false Run.entry_a) "b" 1 Run.embd_b);
    [|vm_compute; reflexivity].
  eapply (reachable_index _ _ _ _ (Run.fresh Run.two false) "a" 1 Run.embd_a);
    [|vm_compute; reflexivity].
  apply (reachable_init _ _ _ _ (Run.params Run.two false) Run.gen0).
  vm_compute. reflexivity.
Defined.

(** * Further properties *)

(** ** More on loops *)

(** A loop whose iterations return and keep an invariant returns. *)
Lemma for_loop_from_total {S} (P : nat -> S -> Prop) (body : nat -> S -> outcome S) n :
  forall i s,
    (forall j t, (i <= j < i + n)%nat -> P j t ->
                 exists t', body j t = Ret t' /\ P (Datatypes.S j) t') ->
    P i s ->
    exists s', for_loop_from i n body s = Ret s' /\ P (i + n)%nat s'.
Proof.
  induction n as [|n IH]; intros i s Hstep Hs; simpl.
  - exists s. by rewrite Nat.add_0_r.
  - destruct (Hstep i s) as (t & Ht & HPt); [lia|done|].
    rewrite Ht. simpl.
    destruct (IH (Datatypes.S i) t) as (s' & Hs' & HP); [|done|].
    { intros j u Hj. apply Hstep. lia. }
    exists s'. split; [done|].
    by replace (i + Datatypes.S n)%nat with (Datatypes.S i + n)%nat by lia.
Qed.

(** A loop whose iterations can only return or stop with [Undef u]. *)
Lemma for_loop_from_cases {S} (P : S -> Prop) (u : undefined)
    (body : nat -> S -> outcome S) n :
  forall i s,
    (forall j t, (i <= j < i + n)%nat -> P t ->
                 body j t = Undef u \/ exists t', body j t = Ret t' /\ P t') ->
    P s ->
    for_loop_from i n body s = Undef u
    \/ exists s', for_loop_from i n body s = Ret s' /\ P s'.
Proof.
  induction n as [|n IH]; intros i s Hstep Hs; simpl.
  - right. by exists s.
  - destruct (Hstep i s) as [Hu|(t & Ht & HPt)]; [lia|done| |].
    + left. by rewrite Hu.
    + rewrite Ht. simpl. apply IH; [|done].
      intros j v Hj. apply Hstep. lia.
Qed.

(** Such a loop stops with [Undef u] when one of its iterations always does. *)
Lemma for_loop_from_undef {S} (P : S -> Prop) (u : undefined)
    (body : nat -> S -> outcome S) n k :
  forall i s,
    (forall j t, (i <= j < i + n)%nat -> P t ->
                 body j t = Undef u \/ exists t', body j t = Ret t' /\ P t') ->
    (i <= k < i + n)%nat ->
    (forall t, P t -> body k t = Undef u) ->
    P s ->
    for_loop_from i n body s = Undef u.
Proof.
  induction n as [|n IH]; intros i s Hstep Hk Hfail Hs; simpl; [lia|].
  destruct (Hstep i s) as [Hu|(t & Ht & HPt)]; [lia|done| |].
  - by rewrite Hu.
  - rewrite Ht. simpl.
    destruct (decide (k = i)) as [->|Hne].
    + rewrite Hfail in Ht by done. discriminate.
    + apply IH; [|lia|done..].
      intros j v Hj. apply Hstep. lia.
Qed.

Lemma read_cases {A} (a : list A) (i : nat) :
  (length a <= i)%nat /\ read a i = Undef buffer_overrun
  \/ exists x, a !! i = Some x /\ read a i = Ret x.
Proof.
  unfold read. destruct (a !! i) as [x|] eqn:H.
  - right. by exists x.
  - left. split; [by apply lookup_ge_None|done].
Qed.

(** ** Keys *)

(** The key, character by character. *)
Lemma hash_to_key_closed (rodata : nat -> ascii) (hash : list Z) (n_hash : Z) :
  (Z.to_nat n_hash <= length hash)%nat ->
  e4b_internal_hash_to_key rodata hash n_hash
  = Ret (string_of_list_ascii (key_char rodata hash <$> seq 0 (Z.to_nat n_hash))).
Proof.
  intros Hlen. unfold e4b_internal_hash_to_key.
  set (n := Z.to_nat n_hash) in *.
  set (st := fun k : nat =>
         (key_char rodata hash <$> seq 0 k) ++ (literal_0 rodata <$> seq k (n - k))).
  assert (H0 : literal_0 rodata <$> seq 0 n = st O).
  { unfold st. simpl. by rewrite Nat.sub_0_r. }
  rewrite H0. rewrite (for_loop_steps _ st).
  - simpl. unfold st. rewrite Nat.sub_diag. simpl. by rewrite app_nil_r.
  - intros k Hk.
    destruct (lookup_lt_is_Some_2 hash k) as [h Hh]; [lia|].
    rewrite (read_Some _ _ _ Hh). simpl.
    assert (Hst : st (Datatypes.S k)
                  = <[k := key_char rodata hash k]> (st k)).
    { unfold st. rewrite seq_S, fmap_app. simpl.
      replace (n - k)%nat with (Datatypes.S (n - Datatypes.S k)) by lia.
      simpl. rewrite insert_app_r_alt by (rewrite length_fmap, length_seq; lia).
      rewrite length_fmap, length_seq, Nat.sub_diag. simpl.
      by rewrite <- app_assoc. }
    assert (Hk' : (k < length (st k))%nat).
    { unfold st. rewrite length_app, !length_fmap, !length_seq. lia. }
    unfold key_char in Hst. rewrite (list_lookup_total_correct _ _ _ Hh) in Hst.
    destruct (decide (h > 0)).
    + unfold write. rewrite decide_True by done. by rewrite Hst.
    + rewrite Hst. f_equal. symmetry. apply list_insert_id.
      unfold st. rewrite lookup_app_r by (rewrite length_fmap, length_seq; lia).
      rewrite length_fmap, length_seq, Nat.sub_diag.
      replace (n - k)%nat with (Datatypes.S (n - Datatypes.S k)) by lia.
      done.
Qed.

Lemma literal_0_not_1 (rodata : nat -> ascii) (n i : nat) :
  (forall k, (k + 2 < n)%nat -> rodata k <> "1"%char) ->
  (i < n)%nat -> literal_0 rodata i <> "1"%char.
Proof.
  intros Hrodata Hi. destruct i as [|[|k]]; simpl; [done|done|].
  apply Hrodata. lia.
Qed.

Lemma fmap_seq_ext {A} (f g : nat -> A) (n : nat) :
  f <$> seq 0 n = g <$> seq 0 n <-> forall i, (i < n)%nat -> f i = g i.
Proof.
  split.
  - intros H i Hi.
    assert (Hl : (f <$> seq 0 n) !! i = (g <$> seq 0 n) !! i) by by rewrite H.
    rewrite !list_lookup_fmap, !lookup_seq_lt in Hl by done. simpl in Hl.
    by injection Hl.
  - intros H. apply list_eq. intros i. rewrite !list_lookup_fmap.
    destruct (decide (i < n)%nat).
    + rewrite lookup_seq_lt by done. simpl. by rewrite H.
    + by rewrite lookup_seq_ge by lia.
Qed.

Lemma string_of_list_ascii_inj (l l' : list ascii) :
  string_of_list_ascii l = string_of_list_ascii l' -> l = l'.
Proof.
  intros H. rewrite <- (list_ascii_of_string_of_list_ascii l),
    <- (list_ascii_of_string_of_list_ascii l'). by rewrite H.
Qed.

(** X1. When none of the image bytes used for the key is the digit 1 (no
    byte is used for [n_hash <= 2]), two hashes get the same key exactly when
    their positive elements are at the same places: buckets are then the
    classes of signatures. *)
Theorem e4b_internal_hash_to_key_inj (rodata : nat -> ascii) (hash hash' : list Z)
    (n_hash : Z) :
  (forall k, (k + 2 < Z.to_nat n_hash)%nat -> rodata k <> "1"%char) ->
  (Z.to_nat n_hash <= length hash)%nat ->
  (Z.to_nat n_hash <= length hash')%nat ->
  e4b_internal_hash_to_key rodata hash n_hash
  = e4b_internal_hash_to_key rodata hash' n_hash
  <-> same_signs (Z.to_nat n_hash) hash hash'.
Proof.
  intros Hrodata Hlen Hlen'. rewrite !hash_to_key_closed by done.
  split.
  - intros [= H%string_of_list_ascii_inj]. intros i Hi.
    apply (proj1 (fmap_seq_ext _ _ _)) with (i := i) in H; [|done].
    pose proof (literal_0_not_1 rodata _ i Hrodata Hi) as Hlit.
    unfold key_char in H. repeat case_decide; try done; by intuition.
  - intros Hsigns. do 2 f_equal. apply fmap_seq_ext. intros i Hi.
    specialize (Hsigns i Hi). unfold key_char.
    repeat case_decide; try done; by intuition.
Qed.

(** X2. When the image byte used at a position of the key is the digit 1,
    the key does not tell whether the hash is positive there: two hashes that
    differ at that position only get the same key, hence the same bucket. *)
Theorem e4b_internal_hash_to_key_collides (rodata : nat -> ascii) (hash hash' : list Z)
    (n_hash : Z) (k : nat) :
  rodata k = "1"%char ->
  (k + 2 < Z.to_nat n_hash)%nat ->
  (Z.to_nat n_hash <= length hash)%nat ->
  (Z.to_nat n_hash <= length hash')%nat ->
  (forall i, (i < Z.to_nat n_hash)%nat -> i <> (k + 2)%nat ->
             (hash !!! i > 0 <-> hash' !!! i > 0)) ->
  e4b_internal_hash_to_key rodata hash n_hash
  = e4b_internal_hash_to_key rodata hash' n_hash.
Proof.
  intros Hk Hkn Hlen Hlen' Hsigns. rewrite !hash_to_key_closed by done.
  do 2 f_equal. apply fmap_seq_ext. intros i Hi. unfold key_char.
  destruct (decide (i = k + 2)%nat) as [->|Hne].
  - replace (k + 2)%nat with (Datatypes.S (Datatypes.S k)) by lia. simpl.
    rewrite Hk. by repeat case_decide.
  - specialize (Hsigns i Hi Hne). repeat case_decide; try done; by intuition.
Qed.

(** ** The built-in hash, again *)

(** X3. Whenever [e4b_lsh] returns, the hash has [n_hash] elements and each
    is 0 or 1. *)
Theorem e4b_lsh_shape (ctx : e4b_context) (embd : list float) (n_embd : Z) (hash : list Z) :
  e4b_lsh ctx embd n_embd = Ret hash ->
  length hash = Z.to_nat (n_hash (cparams ctx))
  /\ Forall (fun b => b = 0 \/ b = 1) hash.
Proof.
  unfold e4b_lsh, for_loop. intros H.
  set (n := Z.to_nat (n_hash (cparams ctx))) in *.
  pose (P := fun (_ : nat) (a : list Z) =>
               length a = n /\ Forall (fun b => b = 0 \/ b = 1) a).
  enough (HP : P (0 + n)%nat hash) by exact HP.
  eapply (for_loop_from_inv P); [| |exact H].
  - intros j a a' _ [Hlen Hbits] Hbody.
    apply bind_Ret in Hbody as (dot & _ & Hbody).
    apply bind_Ret in Hbody as (off & _ & Hbody).
    apply bind_Ret in Hbody as (hi & _ & Hbody).
    apply write_Ret in Hbody as [Hj ->].
    split; [by rewrite length_insert|].
    apply Forall_insert; [done|]. case_decide; auto.
  - split; [by rewrite length_replicate|].
    apply Forall_replicate. auto.
Qed.

(** With at least one hash bit, [e4b_lsh] on a buffer that holds fewer than
    [n_embd] floats runs past the end of a buffer. *)
Lemma e4b_lsh_short (ctx : e4b_context) (embd : list float) (n_embd : Z) :
  0 < n_hash (cparams ctx) ->
  (length embd < Z.to_nat n_embd)%nat ->
  e4b_lsh ctx embd n_embd = Undef buffer_overrun.
Proof.
  intros Hn Hshort. unfold e4b_lsh, for_loop.
  destruct (Z.to_nat (n_hash (cparams ctx))) as [|n] eqn:Hnat; [lia|].
  simpl. unfold for_loop.
  rewrite (for_loop_from_undef (fun _ => True) buffer_overrun _ _ (length embd)); try done.
  - intros j dot _ _.
    destruct (read_cases embd j) as [[_ ->]|(e & _ & ->)]; [by left|]. simpl.
    destruct (read_cases (projections (lsh_ctx ctx)) 0) as [[_ ->]|(row & _ & ->)];
      [by left|]. simpl.
    destruct (read_cases row j) as [[_ ->]|(p & _ & ->)]; [by left|]. simpl.
    right. by eexists.
  - lia.
  - intros dot _.
    destruct (read_cases embd (length embd)) as [[_ ->]|(e & He & _)]; [done|].
    apply lookup_lt_Some in He. lia.
Qed.

(** ** Cosine similarity *)

Lemma F32_mul_comm (x y : float) : F32.mul x y = F32.mul y x.
Proof.
  destruct x as [sx|sx| |sx mx ex], y as [sy|sy| |sy my ey];
    unfold F32.mul; simpl; try done; try by rewrite xorb_comm.
  by rewrite xorb_comm, Pos.mul_comm, Z.add_comm.
Qed.

(** The loop of [e4b_cosine_similarity] with the two buffers exchanged. *)
Lemma cosine_loop_swap (embd_a embd_b : list float) n :
  forall i dot norm1 norm2,
    for_loop_from i n (fun i '(dot, norm1, norm2) =>
        a ← read embd_b i; b ← read embd_a i;
        Ret (F32.add dot (F32.mul a b), F32.add norm1 (F32.mul a a),
             F32.add norm2 (F32.mul b b))) (dot, norm2, norm1)
    = (fun '(dot, norm1, norm2) => (dot, norm2, norm1)) <$>
      for_loop_from i n (fun i '(dot, norm1, norm2) =>
        a ← read embd_a i; b ← read embd_b i;
        Ret (F32.add dot (F32.mul a b), F32.add norm1 (F32.mul a a),
             F32.add norm2 (F32.mul b b))) (dot, norm1, norm2).
Proof.
  induction n as [|n IH]; intros i dot norm1 norm2; [done|]. simpl.
  destruct (read_cases embd_a i) as [[_ Ha]|(a & _ & Ha)],
           (read_cases embd_b i) as [[_ Hb]|(b & _ & Hb)];
    rewrite Ha, Hb; simpl; try done.
  rewrite (F32_mul_comm b a). apply IH.
Qed.

(** X5. [e4b_cosine_similarity] is symmetric in its two buffers, for the
    value returned and for the calls that are undefined. *)
Theorem e4b_cosine_similarity_sym (embd_a embd_b : list float) (n_embd : Z) :
  e4b_cosine_similarity embd_b embd_a n_embd = e4b_cosine_similarity embd_a embd_b n_embd.
Proof.
  unfold e4b_cosine_similarity, for_loop.
  rewrite (cosine_loop_swap embd_a embd_b _ O F32.zero F32.zero F32.zero).
  destruct (for_loop_from _ _ _ _) as [[[dot norm1] norm2]| |]; simpl; try done.
  by rewrite F32_mul_comm.
Qed.

Lemma cosine_returns (embd_a embd_b : list float) (n_embd : Z) :
  (Z.to_nat n_embd <= length embd_a)%nat ->
  (Z.to_nat n_embd <= length embd_b)%nat ->
  exists s, e4b_cosine_similarity embd_a embd_b n_embd = Ret s.
Proof.
  intros Ha Hb. unfold e4b_cosine_similarity, for_loop.
  set (body := fun (i : nat) '(dot, norm1, norm2) =>
         a ← read embd_a i; b ← read embd_b i;
         Ret (F32.add dot (F32.mul a b), F32.add norm1 (F32.mul a a),
              F32.add norm2 (F32.mul b b))).
  destruct (for_loop_from_total (fun _ _ => True) body (Z.to_nat n_embd) O
              (F32.zero, F32.zero, F32.zero)) as ([[dot norm1] norm2] & -> & _);
    [|done|by eexists].
  intros j [[dot norm1] norm2] Hj _. simpl.
  destruct (lookup_lt_is_Some_2 embd_a j) as [a Haj]; [lia|].
  destruct (lookup_lt_is_Some_2 embd_b j) as [b Hbj]; [lia|].
  rewrite (read_Some _ _ _ Haj). simpl. rewrite (read_Some _ _ _ Hbj). simpl.
  by eexists.
Qed.

(** X6. [e4b_cosine_similarity] returns exactly when both buffers hold
    [n_embd] floats; it is a read past the end of a buffer otherwise. *)
Theorem e4b_cosine_similarity_defined (embd_a embd_b : list float) (n_embd : Z) :
  if decide (Z.to_nat n_embd <= length embd_a /\ Z.to_nat n_embd <= length embd_b)%nat
  then exists s, e4b_cosine_similarity embd_a embd_b n_embd = Ret s
  else e4b_cosine_similarity embd_a embd_b n_embd = Undef buffer_overrun.
Proof.
  case_decide as Hlen; [apply cosine_returns; lia|].
  unfold e4b_cosine_similarity, for_loop.
  set (body := fun (i : nat) '(dot, norm1, norm2) =>
         a ← read embd_a i; b ← read embd_b i;
         Ret (F32.add dot (F32.mul a b), F32.add norm1 (F32.mul a a),
              F32.add norm2 (F32.mul b b))).
  rewrite (for_loop_from_undef (fun _ => True) buffer_overrun body _
             (Nat.min (length embd_a) (length embd_b))); try done.
  - intros j [[dot norm1] norm2] _ _. simpl.
    destruct (read_cases embd_a j) as [[_ ->]|(a & _ & ->)]; [by left|]. simpl.
    destruct (read_cases embd_b j) as [[_ ->]|(b & _ & ->)]; [by left|]. simpl.
    right. by eexists.
  - lia.
  - intros [[dot norm1] norm2] _. simpl.
    destruct (read_cases embd_a (Nat.min (length embd_a) (length embd_b)))
      as [[_ ->]|(a & Ha & ->)]; [done|]. simpl.
    destruct (read_cases embd_b (Nat.min (length embd_a) (length embd_b)))
      as [[_ ->]|(b & Hb & ->)]; [done|].
    apply lookup_lt_Some in Ha, Hb. lia.
Qed.

Lemma F32_mul_zero_l (x y : float) :
  float_is_zero x -> float_is_zero_or_nan (F32.mul x y).
Proof. by destruct x, y. Qed.

Lemma F32_mul_zero_self (x : float) :
  float_is_zero x -> F32.mul x x = F32.zero.
Proof. by destruct x as [[]| | |]. Qed.

Lemma F32_add_zero_or_nan (x y : float) :
  float_is_zero_or_nan x -> float_is_zero_or_nan y ->
  float_is_zero_or_nan (F32.add x y).
Proof. by destruct x as [[]| | |], y as [[]| | |]. Qed.

Lemma F32_div_zero_or_nan (x y : float) :
  float_is_zero_or_nan x -> float_is_zero_or_nan y -> F32.div x y = S754_nan.
Proof. by destruct x, y. Qed.

(** The sums when the first buffer holds zeros. *)
Lemma cosine_loop_zero (embd_a embd_b : list float) (n : nat) :
  (n <= length embd_a)%nat -> (n <= length embd_b)%nat ->
  Forall float_is_zero (take n embd_a) ->
  exists dot norm2,
    for_loop n (fun i '(dot, norm1, norm2) =>
        a ← read embd_a i; b ← read embd_b i;
        Ret (F32.add dot (F32.mul a b), F32.add norm1 (F32.mul a a),
             F32.add norm2 (F32.mul b b))) (F32.zero, F32.zero, F32.zero)
    = Ret (dot, F32.zero, norm2)
    /\ float_is_zero_or_nan dot.
Proof.
  intros Ha Hb Hzero.
  set (body := fun (i : nat) '(dot, norm1, norm2) =>
         a ← read embd_a i; b ← read embd_b i;
         Ret (F32.add dot (F32.mul a b), F32.add norm1 (F32.mul a a),
              F32.add norm2 (F32.mul b b))).
  destruct (for_loop_from_total
              (fun _ '(dot, norm1, norm2) =>
                 float_is_zero_or_nan dot /\ norm1 = F32.zero)
              body n O (F32.zero, F32.zero, F32.zero))
    as ([[dot norm1] norm2] & Hloop & Hdot & ->); [|done|by exists dot, norm2].
  intros j [[dot norm1] norm2] Hj [Hdot ->]. simpl.
  destruct (lookup_lt_is_Some_2 embd_a j) as [a Haj]; [lia|].
  destruct (lookup_lt_is_Some_2 embd_b j) as [b Hbj]; [lia|].
  rewrite (read_Some _ _ _ Haj). simpl. rewrite (read_Some _ _ _ Hbj). simpl.
  assert (Hz : float_is_zero a).
  { eapply (proj1 (Forall_lookup _ _) Hzero j). by rewrite lookup_take_lt by lia. }
  eexists. split; [reflexivity|]. split.
  - apply F32_add_zero_or_nan; [done|by apply F32_mul_zero_l].
  - by rewrite F32_mul_zero_self.
Qed.

(** X7. When one of the two vectors is a zero vector, the similarity that
    [e4b_cosine_similarity] returns is NaN, whatever the other vector is. *)
Theorem e4b_cosine_similarity_zero (embd_a embd_b : list float) (n_embd : Z) :
  (Z.to_nat n_embd <= length embd_a)%nat ->
  (Z.to_nat n_embd <= length embd_b)%nat ->
  Forall float_is_zero (take (Z.to_nat n_embd) embd_a)
  \/ Forall float_is_zero (take (Z.to_nat n_embd) embd_b) ->
  e4b_cosine_similarity embd_a embd_b n_embd = Ret S754_nan.
Proof.
  intros Ha Hb [Hzero|Hzero]; unfold e4b_cosine_similarity.
  - destruct (cosine_loop_zero embd_a embd_b _ Ha Hb Hzero) as (dot & norm2 & -> & Hdot).
    simpl. f_equal. apply F32_div_zero_or_nan; [done|].
    by destruct (F32.sqrt norm2).
  - destruct (cosine_loop_zero embd_b embd_a _ Hb Ha Hzero) as (dot & norm1 & Hloop & Hdot).
    unfold for_loop in *.
    pose proof (cosine_loop_swap embd_b embd_a (Z.to_nat n_embd) O
                  F32.zero F32.zero F32.zero) as Hswap.
    rewrite Hloop in Hswap. simpl in Hswap. rewrite Hswap. simpl.
    f_equal. apply F32_div_zero_or_nan; [done|].
    by destruct (F32.sqrt norm1).
Qed.

(** ** Inserts, again *)

Lemma e4b_internal_grow_frame ctx ctx' grown :
  e4b_internal_grow ctx = Ret (ctx', grown) ->
  cparams ctx' = cparams ctx /\ lsh_ctx ctx' = lsh_ctx ctx /\ index ctx' = index ctx
  /\ size ctx' = size ctx
  /\ (grown = false -> ctx' = ctx)
  /\ use_persistent_storage (cparams ctx) = negb grown.
Proof.
  unfold e4b_internal_grow.
  destruct (use_persistent_storage (cparams ctx)).
  - by intros [= <- <-].
  - intros H. apply bind_Ret in H as (ratio & _ & H).
    apply bind_Ret in H as (entries' & _ & H). by injection H as <- <-.
Qed.

Section Insert.

Variable rodata : nat -> ascii.

(** The two ways in which [e4b_index] returns. *)
Lemma e4b_index_cases ctx text n_text embd ctx' r :
  e4b_index rodata ctx text n_text embd = Ret (ctx', r) ->
  exists key,
    signature_key rodata ctx embd (n_embd (cparams ctx)) = Ret key
    /\ (use_persistent_storage (cparams ctx) = true /\ capacity ctx = size ctx
        /\ ctx' = ctx /\ r = 4294967295
        \/ r = size ctx
           /\ inserted ctx key {| text := text; embd := embd; n_text := n_text |} ctx').
Proof.
  unfold e4b_index. intros H.
  apply bind_Ret in H as (hash & Hhash & H).
  apply bind_Ret in H as (key & Hkey & H).
  exists key. split; [unfold signature_key; by rewrite Hhash|].
  apply bind_Ret in H as ([ctx1 grown] & Hgrow & H).
  destruct (decide (capacity ctx = size ctx)) as [Hfull|Hroom].
  - destruct (e4b_internal_grow_frame _ _ _ Hgrow)
      as (Hcp & Hlsh & Hidx & Hsize & Hsame & Hpers).
    destruct grown; simpl in H.
    + right. apply bind_Ret in H as (entries' & Hw & H).
      apply write_Ret in Hw as [Hslot ->]. injection H as <- <-.
      destruct (e4b_internal_grow_spec _ _ Hgrow)
        as (ratio & Hratio & Hcap & _ & Hlen & _ & Hcopy).
      rewrite Hsize in *. split; [done|]. unfold inserted. simpl.
      rewrite length_insert, Hidx.
      repeat split; try done.
      * by apply list_lookup_insert_eq.
      * intros i Hi. rewrite list_lookup_insert_ne by lia. by apply Hcopy.
      * right. repeat split; try done. by exists ratio.
    + left. injection H as <- <-. rewrite (Hsame eq_refl). done.
  - injection Hgrow as <- <-. simpl in H. right.
    apply bind_Ret in H as (entries' & Hw & H).
    apply write_Ret in Hw as [Hslot ->]. injection H as <- <-.
    split; [done|]. unfold inserted. simpl. rewrite length_insert.
    repeat split; try done.
    + by apply list_lookup_insert_eq.
    + intros i Hi. by rewrite list_lookup_insert_ne by lia.
    + by left.
Qed.

(** X8. Whenever [e4b_index] returns, either persistent storage is on, the
    store is full, nothing has changed and the value is [(uint32_t) -1]; or
    the value is the old [size], [size] has been incremented and the slot of
    that handle holds the entry given. *)
Theorem e4b_index_returns ctx text n_text embd ctx' r :
  e4b_index rodata ctx text n_text embd = Ret (ctx', r) ->
  use_persistent_storage (cparams ctx) = true /\ capacity ctx = size ctx
  /\ ctx' = ctx /\ r = 4294967295
  \/ r = size ctx
     /\ size ctx' = to_uint32 (size ctx + 1)
     /\ entries ctx' !! Z.to_nat r
        = Some (Some {| text := text; embd := embd; n_text := n_text |}).
Proof.
  intros H. apply e4b_index_cases in H as (key & _ & [H|[-> H]]); [by left|].
  right. destruct H as (_ & _ & _ & Hsize & _ & Hslot & _). done.
Qed.

(** X9. [e4b_index] leaves the entries of the earlier handles, the buckets
    of the other keys, the projector and the parameters as they were, also
    when the store grows. *)
Theorem e4b_index_frame ctx text n_text embd ctx' r key :
  e4b_index rodata ctx text n_text embd = Ret (ctx', r) ->
  signature_key rodata ctx embd (n_embd (cparams ctx)) = Ret key ->
  (forall i, (i < Z.to_nat (size ctx))%nat -> entries ctx' !! i = entries ctx !! i)
  /\ (forall key', key' <> key -> index ctx' !! key' = index ctx !! key')
  /\ lsh_ctx ctx' = lsh_ctx ctx
  /\ cparams ctx' = cparams ctx.
Proof.
  intros H Hkey.
  apply e4b_index_cases in H as (key0 & Hkey0 & [(_ & _ & -> & _)|[_ H]]); [done|].
  assert (key0 = key) as -> by congruence.
  destruct H as (Hcp & Hlsh & Hidx & _ & _ & _ & Hold & _).
  repeat split; try done.
  intros key' Hne. rewrite Hidx. unfold index_push_back.
  by rewrite lookup_insert_ne.
Qed.

End Insert.

(** ** The states of an index *)

Lemma to_uint32_to_int (z : Z) : 0 <= z < 2 ^ 32 -> to_uint32 (to_int z) = z.
Proof.
  intros Hz. unfold to_uint32, to_int.
  rewrite Zminus_mod, Z.mod_mod by lia.
  rewrite <- Zminus_mod.
  replace (z + 2 ^ 31 - 2 ^ 31) with z by lia.
  by apply Z.mod_small.
Qed.

Lemma to_uint32_range (z : Z) : 0 <= to_uint32 z < 2 ^ 32.
Proof. unfold to_uint32. apply Z.mod_pos_bound. lia. Qed.

(** The key of an embedding depends on the parameters and the projector
    only. *)
Lemma signature_key_ext rodata ctx ctx' embd n_embd :
  cparams ctx' = cparams ctx -> lsh_ctx ctx' = lsh_ctx ctx ->
  signature_key rodata ctx' embd n_embd = signature_key rodata ctx embd n_embd.
Proof.
  intros Hcp Hlsh. unfold signature_key, call_fn_hash, e4b_lsh.
  by rewrite Hcp, Hlsh.
Qed.

Section States.

Variable rodata : nat -> ascii.
Variable generator : Type.
Variable nd : generator -> float * generator.
Variable ud : Z -> generator -> float * generator.

Lemma e4b_init_store cparams0 gen ctx :
  e4b_init generator nd ud cparams0 gen = Ret ctx ->
  cparams ctx = cparams0 /\ index ctx = ∅ /\ size ctx = 0
  /\ capacity ctx = to_uint32 (n_init_capacity cparams0)
  /\ entries ctx = replicate (Z.to_nat (to_uint32 (n_init_capacity cparams0))) None.
Proof.
  unfold e4b_init. intros H.
  apply bind_Ret in H as ([lsh gen'] & _ & H). by injection H as <-.
Qed.

Lemma inserted_store_ok ctx key e ctx' :
  store_ok ctx -> inserted ctx key e ctx' -> store_ok ctx'.
Proof.
  intros [Hsize Hcap Hext Hocc Hhandles Hbuckets]
         (Hcp & Hlsh & Hidx & Hsize' & Hslot & Hnew & Hold & Hgrow).
  assert (Hcap' : capacity ctx' < 2 ^ 32
                  /\ length (entries ctx') = Z.to_nat (capacity ctx')).
  { destruct Hgrow as [(_ & -> & ->)|(_ & _ & ratio & _ & -> & ->)]; [done|].
    split; [apply to_uint32_range|done]. }
  destruct Hcap' as [Hcap' Hext'].
  assert (Hlt : size ctx < capacity ctx') by lia.
  assert (Hs : size ctx' = size ctx + 1).
  { rewrite Hsize'. apply to_uint32_small. lia. }
  split; try done.
  - lia.
  - intros i Hi. destruct (decide (i = Z.to_nat (size ctx))) as [->|Hne].
    + by eexists.
    + rewrite Hold by lia. apply Hocc. lia.
  - intros key' bucket h. rewrite Hidx. unfold index_push_back.
    destruct (decide (key = key')) as [<-|Hne].
    + rewrite lookup_insert_eq. intros [= <-] [Hh|Hh%list_elem_of_singleton]%elem_of_app.
      * destruct (index ctx !! key) as [old|] eqn:Hkey; simpl in Hh;
          [|by apply not_elem_of_nil in Hh].
        specialize (Hhandles _ _ _ Hkey Hh). lia.
      * subst h. rewrite to_uint32_to_int by lia. lia.
    + rewrite lookup_insert_ne by done. intros Hkey Hh.
      specialize (Hhandles _ _ _ Hkey Hh). lia.
  - intros key' bucket. rewrite Hidx. unfold index_push_back.
    destruct (decide (key = key')) as [<-|Hne].
    + rewrite lookup_insert_eq. intros [= <-]. rewrite length_app. simpl.
      destruct (index ctx !! key) as [old|] eqn:Hkey; simpl.
      * specialize (Hbuckets _ _ Hkey). lia.
      * lia.
    + rewrite lookup_insert_ne by done. intros Hkey.
      specialize (Hbuckets _ _ Hkey). lia.
Qed.

Lemma reachable_store ctx :
  reachable rodata generator nd ud ctx -> store_ok ctx.
Proof.
  induction 1 as [cparams0 gen ctx Hinit|ctx text n_text embd ctx' r _ IH Hindex].
  - apply e4b_init_store in Hinit as (_ & Hidx & Hsize & Hcap & Hentries).
    pose proof (to_uint32_range (n_init_capacity cparams0)).
    split; rewrite ?Hsize, ?Hcap, ?Hentries, ?Hidx.
    + lia.
    + lia.
    + by rewrite length_replicate.
    + intros i Hi. simpl in Hi. lia.
    + intros key bucket h. by rewrite lookup_empty.
    + intros key bucket. by rewrite lookup_empty.
  - apply e4b_index_cases in Hindex as (key & _ & [(_ & _ & -> & _)|[_ H]]); [done|].
    by eapply inserted_store_ok.
Qed.

(** X10. In every state of an index, [0 <= size <= capacity < 2^32], the
    entry array has [capacity] slots, and each handle below [size] has an
    entry. *)
Theorem reachable_size_capacity ctx :
  reachable rodata generator nd ud ctx ->
  0 <= size ctx <= capacity ctx
  /\ capacity ctx < 2 ^ 32
  /\ length (entries ctx) = Z.to_nat (capacity ctx)
  /\ forall h, 0 <= h < size ctx -> exists e, entries ctx !! Z.to_nat h = Some (Some e).
Proof.
  intros [Hsize Hcap Hext Hocc _ _]%reachable_store.
  repeat split; try done; try lia.
  intros h Hh. apply Hocc. lia.
Qed.

End States.

Lemma inserted_size ctx key e ctx' :
  store_ok ctx -> inserted ctx key e ctx' -> size ctx' = size ctx + 1.
Proof.
  intros Hok Hins. pose proof (inserted_store_ok _ _ _ _ Hok Hins) as Hok'.
  destruct Hok as [Hsize Hcap Hext _ _ _], Hok' as [Hsize' Hcap' Hext' _ _ _].
  destruct Hins as (_ & _ & _ & Hs & Hslot & _). rewrite Hs.
  apply to_uint32_small. lia.
Qed.

Lemma inserted_unique ctx key e ctx' :
  store_ok ctx -> handles_unique (index ctx) -> inserted ctx key e ctx' ->
  handles_unique (index ctx').
Proof.
  intros [Hsize Hcap _ _ Hhandles _] [Hnodup Hone] (_ & _ & Hidx & _).
  assert (Hfresh : forall key' bucket, index ctx !! key' = Some bucket ->
                                       to_int (size ctx) ∉ bucket).
  { intros key' bucket Hkey Hin. specialize (Hhandles _ _ _ Hkey Hin).
    rewrite to_uint32_to_int in Hhandles by lia. lia. }
  rewrite Hidx. unfold index_push_back. split.
  - intros key' bucket. destruct (decide (key = key')) as [<-|Hne].
    + rewrite lookup_insert_eq. intros [= <-].
      destruct (index ctx !! key) as [old|] eqn:Hkey; simpl.
      * apply NoDup_app. split; [by eapply Hnodup|]. split; [|apply NoDup_singleton].
        intros h Hh Hh'%list_elem_of_singleton. subst h. by eapply Hfresh.
      * apply NoDup_singleton.
    + rewrite lookup_insert_ne by done. apply Hnodup.
  - intros key1 key2 b1 b2 h.
    destruct (decide (key = key1)) as [<-|Hne1], (decide (key = key2)) as [<-|Hne2];
      [done| | |].
    + rewrite lookup_insert_eq, lookup_insert_ne by done.
      intros [= <-] Hkey2 [Hh|Hh%list_elem_of_singleton]%elem_of_app Hh2.
      * destruct (index ctx !! key) as [old|] eqn:Hkey; simpl in Hh;
          [by eapply Hone|by apply not_elem_of_nil in Hh].
      * subst h. by eapply Hfresh in Hh2.
    + rewrite lookup_insert_ne, lookup_insert_eq by done.
      intros Hkey1 [= <-] Hh1 [Hh|Hh%list_elem_of_singleton]%elem_of_app.
      * destruct (index ctx !! key) as [old|] eqn:Hkey; simpl in Hh;
          [symmetry; by eapply Hone|by apply not_elem_of_nil in Hh].
      * subst h. by eapply Hfresh in Hh1.
    + rewrite !lookup_insert_ne by done. apply Hone.
Qed.

Section Handles.

Variable rodata : nat -> ascii.
Variable generator : Type.
Variable nd : generator -> float * generator.
Variable ud : Z -> generator -> float * generator.

(** X11. In every state of an index, each handle below [size] is in a
    bucket, no handle is in two buckets, and no bucket has a handle twice. *)
Theorem reachable_handles ctx :
  reachable rodata generator nd ud ctx ->
  (forall h, 0 <= h < size ctx ->
             exists key bucket, index ctx !! key = Some bucket /\ to_int h ∈ bucket)
  /\ handles_unique (index ctx).
Proof.
  intros Hreach.
  induction Hreach as [cparams0 gen ctx Hinit|ctx text n_text embd ctx' r Hreach IH Hindex].
  - apply e4b_init_store in Hinit as (_ & Hidx & Hsize & _).
    rewrite Hidx, Hsize. split; [intros; lia|].
    split; intros ?; intros; by rewrite lookup_empty in *.
  - pose proof (reachable_store _ _ _ _ _ Hreach) as Hok.
    apply e4b_index_cases in Hindex as (key & _ & [(_ & _ & -> & _)|[_ H]]); [done|].
    destruct IH as [Hin Hunique]. split; [|by eapply inserted_unique].
    rewrite (inserted_size _ _ _ _ Hok H).
    destruct H as (_ & _ & Hidx & _). rewrite Hidx. unfold index_push_back.
    intros h Hh. destruct (decide (h = size ctx)) as [->|Hne].
    + exists key. eexists. rewrite lookup_insert_eq. split; [done|].
      apply elem_of_app. right. by apply list_elem_of_singleton.
    + destruct (Hin h) as (key' & bucket & Hkey & Hb); [lia|].
      destruct (decide (key = key')) as [<-|Hne'].
      * exists key. eexists. rewrite lookup_insert_eq. split; [done|].
        rewrite Hkey. simpl. apply elem_of_app. by left.
      * exists key', bucket. by rewrite lookup_insert_ne.
Qed.

End Handles.

(** ** Later states *)

Section Later.

Variable rodata : nat -> ascii.

(** X12. Through any number of inserts, with or without growth, [size] does
    not decrease, the entry of each handle already given stays what it was,
    each bucket keeps its handles in front of the new ones, and the key of an
    embedding stays the same. *)
Theorem later_keeps ctx ctx' :
  store_ok ctx ->
  later rodata ctx ctx' ->
  store_ok ctx'
  /\ size ctx <= size ctx'
  /\ (forall i, (i < Z.to_nat (size ctx))%nat -> entries ctx' !! i = entries ctx !! i)
  /\ (forall key bucket, index ctx !! key = Some bucket ->
        exists more, index ctx' !! key = Some (bucket ++ more))
  /\ (forall embd n_embd,
        signature_key rodata ctx' embd n_embd = signature_key rodata ctx embd n_embd).
Proof.
  intros Hok. induction 1 as [|ctx1 text n_text embd ctx2 r _ IH Hindex].
  - split; [done|]. split; [lia|]. split; [done|]. split; [|done].
    intros key bucket Hkey. exists []. by rewrite app_nil_r.
  - destruct IH as (Hok1 & Hsize & Hentries & Hbuckets & Hsig).
    apply e4b_index_cases in Hindex as (key & _ & [(_ & _ & -> & _)|[_ H]]); [done|].
    pose proof (inserted_store_ok _ _ _ _ Hok1 H) as Hok2.
    pose proof (inserted_size _ _ _ _ Hok1 H) as Hsize2.
    destruct H as (Hcp & Hlsh & Hidx & _ & _ & _ & Hold & _).
    destruct Hok as [[Hs0 _] _ _ _ _ _].
    split; [done|]. split; [lia|]. split; [|split].
    + intros i Hi. rewrite Hold by lia. by apply Hentries.
    + intros key' bucket Hkey. destruct (Hbuckets _ _ Hkey) as [more Hmore].
      rewrite Hidx. unfold index_push_back.
      destruct (decide (key = key')) as [<-|Hne].
      * rewrite lookup_insert_eq, Hmore. simpl.
        eexists. by rewrite <- app_assoc.
      * exists more. by rewrite lookup_insert_ne.
    + intros e n. rewrite <- Hsig. by apply signature_key_ext.
Qed.

(** X13. After an insert that succeeds, the candidates of a query with the
    embedding inserted are the handles that its bucket had, followed by the
    handle returned: the query cannot miss. *)
Theorem e4b_index_then_bucket ctx text n_text embd ctx' r key :
  e4b_index rodata ctx text n_text embd = Ret (ctx', r) ->
  use_persistent_storage (cparams ctx) = false \/ capacity ctx <> size ctx ->
  signature_key rodata ctx embd (n_embd (cparams ctx)) = Ret key ->
  e4b_query_bucket rodata ctx' embd (n_embd (cparams ctx))
  = Ret (default [] (index ctx !! key) ++ [to_int r]).
Proof.
  intros Hindex Hroom Hkey.
  apply e4b_index_cases in Hindex as (key0 & Hkey0 & [(Hp & Hfull & _)|[-> H]]).
  { destruct Hroom; congruence. }
  assert (key0 = key) as -> by congruence.
  destruct H as (Hcp & Hlsh & Hidx & _).
  unfold e4b_query_bucket.
  rewrite (signature_key_ext _ _ _ _ _ Hcp Hlsh), Hkey. simpl.
  unfold index_at. rewrite Hidx. unfold index_push_back.
  by rewrite lookup_insert_eq.
Qed.

End Later.

(** ** Growth *)

(** [e4b_internal_grow] returns when the new capacity is not below [size]. *)
Lemma e4b_internal_grow_returns ctx ratio :
  store_ok ctx ->
  use_persistent_storage (cparams ctx) = false ->
  F32.to_uint32 (grow_ratio (cparams ctx)) = Ret ratio ->
  size ctx <= to_uint32 (ratio * capacity ctx) ->
  exists ctx1, e4b_internal_grow ctx = Ret (ctx1, true).
Proof.
  intros [Hsize Hcap Hext _ _ _] Hpers Hratio Hnew.
  unfold e4b_internal_grow. rewrite Hpers, Hratio. simpl.
  set (n := Z.to_nat (to_uint32 (ratio * capacity ctx))).
  destruct (for_loop_from_total
              (fun _ (a : list (option e4b_entry)) => length a = n)
              (fun i a => e ← read (entries ctx) i; write a i e)
              (Z.to_nat (size ctx)) O (replicate n None))
    as (entries' & Hloop & _).
  - intros j a Hj Ha.
    destruct (lookup_lt_is_Some_2 (entries ctx) j) as [e He]; [lia|].
    rewrite (read_Some _ _ _ He). simpl. unfold write.
    rewrite decide_True by lia. eexists. split; [done|]. by rewrite length_insert.
  - by rewrite length_replicate.
  - unfold for_loop. rewrite Hloop. simpl. by eexists.
Qed.

(** [e4b_internal_grow] overruns the new array when it is shorter than
    [size]. *)
Lemma e4b_internal_grow_overrun ctx ratio :
  store_ok ctx ->
  use_persistent_storage (cparams ctx) = false ->
  F32.to_uint32 (grow_ratio (cparams ctx)) = Ret ratio ->
  to_uint32 (ratio * capacity ctx) < size ctx ->
  e4b_internal_grow ctx = Undef buffer_overrun.
Proof.
  intros [Hsize Hcap Hext _ _ _] Hpers Hratio Hnew.
  pose proof (to_uint32_range (ratio * capacity ctx)) as Hrange.
  unfold e4b_internal_grow. rewrite Hpers, Hratio. simpl.
  set (n := Z.to_nat (to_uint32 (ratio * capacity ctx))).
  unfold for_loop.
  rewrite (for_loop_from_undef
             (fun a : list (option e4b_entry) => length a = n) buffer_overrun _ _ n);
    try done.
  - intros j a _ Ha.
    destruct (read_cases (entries ctx) j) as [[_ ->]|(e & _ & ->)]; [by left|]. simpl.
    unfold write. case_decide; [|by left].
    right. eexists. split; [done|]. by rewrite length_insert.
  - lia.
  - intros a Ha.
    destruct (read_cases (entries ctx) n) as [[_ ->]|(e & _ & ->)]; [done|]. simpl.
    unfold write. by rewrite decide_False by lia.
  - by rewrite length_replicate.
Qed.

Section Growth.

Variable rodata : nat -> ascii.

(** X14. An insert into a sound store succeeds, with the old [size] as its
    handle, when the embedding is hashed and either a slot is free, or the
    store is not persistent and the capacity times the truncated
    [grow_ratio], modulo [2^32], exceeds [size]. *)
Theorem e4b_index_succeeds ctx text n_text embd key :
  store_ok ctx ->
  signature_key rodata ctx embd (n_embd (cparams ctx)) = Ret key ->
  (capacity ctx <> size ctx
   \/ use_persistent_storage (cparams ctx) = false
      /\ exists ratio, F32.to_uint32 (grow_ratio (cparams ctx)) = Ret ratio
                       /\ size ctx < to_uint32 (ratio * capacity ctx)) ->
  exists ctx',
    e4b_index rodata ctx text n_text embd = Ret (ctx', size ctx)
    /\ inserted ctx key {| text := text; embd := embd; n_text := n_text |} ctx'.
Proof.
  intros Hok Hkey Hroom.
  assert (Hret : exists ctx' r, e4b_index rodata ctx text n_text embd = Ret (ctx', r)
                                /\ ctx' <> ctx).
  { rewrite (e4b_index_key _ _ _ _ _ _ Hkey).
    destruct Hok as [Hsize Hcap Hext Hocc Hh Hb].
    destruct (decide (capacity ctx = size ctx)) as [Hfull|Hfree].
    - destruct Hroom as [?|(Hpers & ratio & Hratio & Hnew)]; [done|].
      destruct (e4b_internal_grow_returns ctx ratio) as [ctx1 Hgrow];
        [done|done|done|lia|].
      rewrite Hgrow. simpl.
      destruct (e4b_internal_grow_spec _ _ Hgrow)
        as (ratio' & Hratio' & Hcap' & Hsize' & Hlen & _).
      assert (ratio' = ratio) as -> by congruence.
      unfold write. rewrite decide_True by lia. simpl.
      eexists _, _. split; [done|]. intros Heq.
      apply (f_equal size) in Heq. simpl in Heq.
      pose proof (to_uint32_range (ratio * capacity ctx)).
      rewrite Hsize', to_uint32_small in Heq by lia. lia.
    - simpl. unfold write. rewrite decide_True by lia. simpl.
      eexists _, _. split; [done|]. intros Heq.
      apply (f_equal size) in Heq. simpl in Heq.
      rewrite to_uint32_small in Heq by lia. lia. }
  destruct Hret as (ctx' & r & Hret & Hne). exists ctx'.
  destruct (e4b_index_cases _ _ _ _ _ _ _ Hret) as (key0 & Hkey0 & [(_ & _ & ? & _)|[-> H]]);
    [done|].
  assert (key0 = key) as -> by congruence. done.
Qed.

(** X15. An insert into a full, sound, non-persistent store is a buffer
    overrun when the capacity times the truncated [grow_ratio], modulo
    [2^32], does not exceed [size]: a ratio below 2, a capacity of 0. *)
Theorem e4b_index_overrun ctx text n_text embd key ratio :
  store_ok ctx ->
  signature_key rodata ctx embd (n_embd (cparams ctx)) = Ret key ->
  capacity ctx = size ctx ->
  use_persistent_storage (cparams ctx) = false ->
  F32.to_uint32 (grow_ratio (cparams ctx)) = Ret ratio ->
  to_uint32 (ratio * capacity ctx) <= size ctx ->
  e4b_index rodata ctx text n_text embd = Undef buffer_overrun.
Proof.
  intros Hok Hkey Hfull Hpers Hratio Hnew.
  rewrite (e4b_index_key _ _ _ _ _ _ Hkey). rewrite decide_True by done.
  destruct (decide (to_uint32 (ratio * capacity ctx) < size ctx)) as [Hlt|Hge].
  - by rewrite (e4b_internal_grow_overrun ctx ratio).
  - destruct (e4b_internal_grow_returns ctx ratio) as [ctx1 Hgrow];
      [done|done|done|lia|].
    rewrite Hgrow. simpl.
    destruct (e4b_internal_grow_spec _ _ Hgrow)
      as (ratio' & Hratio' & Hcap' & Hsize' & Hlen & _).
    assert (ratio' = ratio) as -> by congruence.
    pose proof (to_uint32_range (ratio * capacity ctx)).
    unfold write. by rewrite decide_False by lia.
Qed.

End Growth.

(** ** Queries, again *)

Lemma filter_all_same {A} (f : A -> bool) (b : bool) (l : list A) :
  Forall (fun x => f x = b) l -> List.filter f l = if b then l else [].
Proof.
  induction 1 as [|x l Hx _ IH]; simpl; [by destruct b|].
  rewrite Hx, IH. by destruct b.
Qed.

Lemma e4b_query_score_inv ctx q_embd h r :
  e4b_query_score ctx q_embd h = Ret r ->
  idx r = to_uint32 h
  /\ entries ctx !! Z.to_nat (to_uint32 h) = Some (Some (entry r)).
Proof.
  unfold e4b_query_score, read_entry, read. intros H.
  apply bind_Ret in H as (e & He & H).
  apply bind_Ret in H as (entries0 & _ & H).
  apply bind_Ret in H as (s & _ & H). injection H as <-. simpl.
  split; [done|].
  destruct (entries ctx !! Z.to_nat (to_uint32 h)) as [[e'|]|]; simpl in He; try done.
  by injection He as ->.
Qed.

(** The candidates scored by a query: one per handle of the bucket, all with
    one score. *)
Lemma e4b_query_candidates ctx q_embd bucket v_results :
  mapM (e4b_query_score ctx q_embd) bucket = Ret v_results ->
  (forall r, r ∈ v_results ->
     exists h, h ∈ bucket /\ idx r = to_uint32 h
               /\ entries ctx !! Z.to_nat (idx r) = Some (Some (entry r)))
  /\ exists s, Forall (fun r => score r = s) v_results.
Proof.
  intros H%mapM_Ret. split.
  - intros r Hr. apply list_elem_of_lookup in Hr as [i Hi].
    destruct (Forall2_lookup_r _ _ _ _ _ H Hi) as (h & Hh & Hscore).
    apply e4b_query_score_inv in Hscore as [Hidx Hentry].
    exists h. split; [by eapply list_elem_of_lookup_2|]. by rewrite Hidx.
  - destruct v_results as [|r0 v]; [by exists F32.zero|].
    exists (score r0). apply Forall_forall. intros r Hr.
    apply list_elem_of_lookup in Hr as [i Hi].
    destruct (Forall2_lookup_r _ _ _ _ _ H Hi) as (h & _ & Hscore).
    destruct (Forall2_lookup_r _ _ _ _ _ H (eq_refl : (r0 :: v) !! O = Some r0))
      as (h0 & _ & Hscore0).
    by eapply e4b_query_score_same.
Qed.

Section QueryResults.

Variable rodata : nat -> ascii.
Variable std_sort : list e4b_query_result_entry -> list e4b_query_result_entry.
Hypothesis std_sort_perm : forall l, std_sort l ≡ₚ l.

(** [*results] on the array that the selection loop leaves. *)
Lemma deref_results_front (kept : list e4b_query_result_entry) (n : nat) :
  deref_results ((Some <$> kept) ++ replicate n None)
  = match kept with
    | r :: _ => Ret (ptr_to r)
    | [] => Undef (if decide (n = O) then buffer_overrun else indeterminate_read)
    end.
Proof. destruct kept as [|r kept]; [|done]. by destruct n. Qed.

(** The outcome of a query on a bucket that is not empty and whose
    candidates are scored. *)
Lemma e4b_query_array_outcome ctx q_embd n_q_embd top_n similarity bucket v_results :
  e4b_query_bucket rodata ctx q_embd n_q_embd = Ret bucket ->
  bucket <> [] ->
  mapM (e4b_query_score ctx q_embd) bucket = Ret v_results ->
  0 <= top_n < 2 ^ 32 ->
  Z.of_nat (length bucket) < 2 ^ 32 ->
  let kept := query_kept (std_sort v_results) top_n similarity in
  let capacity := Z.to_nat (Z.min top_n (Z.of_nat (length bucket))) in
  e4b_query_array rodata std_sort ctx q_embd n_q_embd top_n similarity
  = match kept with
    | r :: _ =>
        Ret ((Some <$> kept) ++ replicate (capacity - length kept) None,
             {| results := ptr_to r; n_results := Z.of_nat (length kept);
                total := Z.of_nat (length bucket) |})
    | [] => Undef (if decide (capacity = O) then buffer_overrun else indeterminate_read)
    end.
Proof.
  intros Hbucket Hne Hscore Htop Hlen kept capacity.
  rewrite e4b_query_array_bucket, Hbucket. simpl.
  rewrite decide_False by done. rewrite Hscore. simpl.
  pose proof (mapM_Ret_length _ _ _ Hscore) as Hv.
  assert (Hsorted : length (std_sort v_results) = length bucket).
  { rewrite <- Hv. apply Permutation_length, std_sort_perm. }
  rewrite e4b_query_select_spec by lia. simpl.
  rewrite Hsorted. fold kept capacity. rewrite deref_results_front.
  destruct kept as [|r kept']; [|done]. simpl. by rewrite Nat.sub_0_r.
Qed.

(** A query that returns on a bucket that is not empty. *)
Lemma e4b_query_array_hit ctx q_embd n_q_embd top_n similarity bucket array res :
  e4b_query_bucket rodata ctx q_embd n_q_embd = Ret bucket ->
  bucket <> [] ->
  0 <= top_n < 2 ^ 32 ->
  Z.of_nat (length bucket) < 2 ^ 32 ->
  e4b_query_array rodata std_sort ctx q_embd n_q_embd top_n similarity = Ret (array, res) ->
  exists v_results,
    mapM (e4b_query_score ctx q_embd) bucket = Ret v_results
    /\ length v_results = length bucket
    /\ let kept := query_kept (std_sort v_results) top_n similarity in
       let capacity := Z.to_nat (Z.min top_n (Z.of_nat (length bucket))) in
       array = (Some <$> kept) ++ replicate (capacity - length kept) None
       /\ n_results res = Z.of_nat (length kept)
       /\ total res = Z.of_nat (length bucket).
Proof.
  intros Hbucket Hne Htop Hlen H.
  assert (Hscore : exists v, mapM (e4b_query_score ctx q_embd) bucket = Ret v).
  { rewrite e4b_query_array_bucket, Hbucket in H. simpl in H.
    rewrite decide_False in H by done.
    apply bind_Ret in H as (v & Hv & _). by exists v. }
  destruct Hscore as [v Hscore]. exists v. split; [done|].
  split; [by eapply mapM_Ret_length|].
  rewrite (e4b_query_array_outcome _ _ _ _ _ _ _ Hbucket Hne Hscore Htop Hlen) in H.
  destruct (query_kept (std_sort v) top_n similarity) as [|r kept]; [done|].
  by injection H as <- <-.
Qed.

(** X16. Since every candidate of a query has the same score, the threshold
    keeps all of the first [min(top_n, total)] candidates or none:
    [n_results] is [min(top_n, total)] or 0. *)
Theorem e4b_query_all_or_none ctx q_embd n_q_embd top_n similarity bucket array res :
  e4b_query_bucket rodata ctx q_embd n_q_embd = Ret bucket ->
  bucket <> [] ->
  0 <= top_n < 2 ^ 32 ->
  Z.of_nat (length bucket) < 2 ^ 32 ->
  e4b_query_array rodata std_sort ctx q_embd n_q_embd top_n similarity = Ret (array, res) ->
  n_results res = 0 \/ n_results res = Z.min top_n (total res).
Proof.
  intros Hbucket Hne Htop Hlen H.
  destruct (e4b_query_array_hit _ _ _ _ _ _ _ _ Hbucket Hne Htop Hlen H)
    as (v & Hscore & Hv & _ & -> & ->).
  destruct (e4b_query_candidates _ _ _ _ Hscore) as [_ [s Hs]].
  assert (Hsorted : Forall (fun r => score r = s) (std_sort v)).
  { apply Forall_forall. intros r Hr. rewrite std_sort_perm in Hr.
    by eapply (proj1 (Forall_forall _ _) Hs). }
  unfold query_kept.
  rewrite (filter_all_same _ (F32.geb s similarity)).
  - destruct (F32.geb s similarity); [right|by left].
    rewrite length_take.
    assert (length (std_sort v) = length bucket) as ->.
    { rewrite <- Hv. apply Permutation_length, std_sort_perm. }
    lia.
  - apply Forall_take. eapply Forall_impl; [exact Hsorted|]. simpl. by intros r ->.
Qed.

(** X17. Each entry that a query stores in [results] is the entry of a
    handle of the bucket: its [idx] is that handle and its [entry] is the
    content of slot [idx] of the store. *)
Theorem e4b_query_results_from_bucket ctx q_embd n_q_embd top_n similarity bucket
    array res r :
  e4b_query_bucket rodata ctx q_embd n_q_embd = Ret bucket ->
  bucket <> [] ->
  0 <= top_n < 2 ^ 32 ->
  Z.of_nat (length bucket) < 2 ^ 32 ->
  e4b_query_array rodata std_sort ctx q_embd n_q_embd top_n similarity = Ret (array, res) ->
  r ∈ stored array ->
  exists h, h ∈ bucket /\ idx r = to_uint32 h
            /\ entries ctx !! Z.to_nat (idx r) = Some (Some (entry r)).
Proof.
  intros Hbucket Hne Htop Hlen H Hr.
  destruct (e4b_query_array_hit _ _ _ _ _ _ _ _ Hbucket Hne Htop Hlen H)
    as (v & Hscore & Hv & -> & _).
  rewrite stored_front in Hr. unfold query_kept in Hr.
  apply list_elem_of_In, List.filter_In in Hr as [Hr%list_elem_of_In _].
  apply elem_of_take in Hr as (i & Hr & _).
  apply list_elem_of_lookup_2 in Hr. rewrite std_sort_perm in Hr.
  by apply (proj1 (e4b_query_candidates _ _ _ _ Hscore)).
Qed.

(** X18. On a bucket that is not empty and whose candidates are scored,
    [e4b_query] returns exactly when the selection keeps an entry: the
    pointer returned is then the first entry kept, [n_results] their number
    and [total] the size of the bucket. When nothing is kept, the read
    [*results] is past the end of an array without slots
    ([min(top_n, total) = 0]) or of a slot never assigned. *)
Theorem e4b_query_results_pointer ctx q_embd n_q_embd top_n similarity bucket v_results :
  e4b_query_bucket rodata ctx q_embd n_q_embd = Ret bucket ->
  bucket <> [] ->
  mapM (e4b_query_score ctx q_embd) bucket = Ret v_results ->
  0 <= top_n < 2 ^ 32 ->
  Z.of_nat (length bucket) < 2 ^ 32 ->
  e4b_query rodata std_sort ctx q_embd n_q_embd top_n similarity
  = match query_kept (std_sort v_results) top_n similarity with
    | r :: kept =>
        Ret {| results := ptr_to r;
               n_results := Z.of_nat (length (r :: kept));
               total := Z.of_nat (length bucket) |}
    | [] =>
        Undef (if decide (Z.min top_n (Z.of_nat (length bucket)) = 0)
               then buffer_overrun else indeterminate_read)
    end.
Proof.
  intros Hbucket Hne Hscore Htop Hlen. unfold e4b_query.
  rewrite (e4b_query_array_outcome _ _ _ _ _ _ _ Hbucket Hne Hscore Htop Hlen).
  destruct (query_kept (std_sort v_results) top_n similarity) as [|r kept]; [|done].
  simpl. f_equal. repeat case_decide; try done; lia.
Qed.

End QueryResults.

(** ** Construction, again *)

Section Construction.

Variable rodata : nat -> ascii.
Variable generator : Type.
Variable nd : generator -> float * generator.
Variable ud : Z -> generator -> float * generator.

Lemma e4b_init_inner_loop (n_hash n_embd : nat) (i : nat) lsh gen :
  lsh_extents n_hash n_embd lsh ->
  (i < n_hash)%nat ->
  exists lsh' gen',
    for_loop n_embd (fun j '(lsh, gen) =>
        let '(x, gen) := nd gen in
        row ← read (projections lsh) i;
        row ← write row j x;
        projections' ← write (projections lsh) i row;
        Ret ({| projections := projections'; offsets := offsets lsh |}, gen)) (lsh, gen)
    = Ret (lsh', gen')
    /\ lsh_extents n_hash n_embd lsh'.
Proof.
  intros Hext Hi.
  destruct (for_loop_from_total
              (fun _ (s : e4b_lsh_context * generator) => lsh_extents n_hash n_embd s.1)
              (fun j '(lsh, gen) =>
                 let '(x, gen) := nd gen in
                 row ← read (projections lsh) i;
                 row ← write row j x;
                 projections' ← write (projections lsh) i row;
                 Ret ({| projections := projections'; offsets := offsets lsh |}, gen))
              n_embd O (lsh, gen)) as ([lsh' gen'] & Hloop & Hext'); [|done|by eexists _, _].
  intros j [lsh1 g1] Hj (Hp & Hrows & Ho). simpl in *.
  destruct (nd g1) as [x g2].
  destruct (lookup_lt_is_Some_2 (projections lsh1) i) as [row Hrow]; [lia|].
  rewrite (read_Some _ _ _ Hrow). simpl.
  pose proof (proj1 (Forall_lookup _ _) Hrows _ _ Hrow) as Hlen. simpl in Hlen.
  unfold write. rewrite decide_True by lia. simpl.
  rewrite decide_True by lia. simpl.
  eexists. split; [done|]. unfold lsh_extents. simpl.
  split; [by rewrite length_insert|]. split; [|done].
  apply Forall_insert; [done|]. by rewrite length_insert.
Qed.

Lemma e4b_init_new_extents (n_hash n_embd : Z) :
  lsh_extents (Z.to_nat n_hash) (Z.to_nat n_embd) (e4b_lsh_context_new n_hash n_embd).
Proof.
  unfold lsh_extents, e4b_lsh_context_new. simpl.
  rewrite !length_replicate. repeat split.
  apply Forall_replicate. by rewrite length_replicate.
Qed.

Lemma e4b_init_outer_step (cparams0 : e4b_context_params) i lsh gen :
  lsh_extents (Z.to_nat (n_hash cparams0)) (Z.to_nat (n_embd cparams0)) lsh ->
  (i < Z.to_nat (n_hash cparams0))%nat ->
  let body := fun (i : nat) '(lsh, gen) =>
    '(lsh, gen) ←
      for_loop (Z.to_nat (n_embd cparams0)) (fun j '(lsh, gen) =>
        let '(x, gen) := nd gen in
        row ← read (projections lsh) i;
        row ← write row j x;
        projections' ← write (projections lsh) i row;
        Ret ({| projections := projections'; offsets := offsets lsh |}, gen)) (lsh, gen);
    let '(x, gen) := ud (n_hash cparams0) gen in
    offsets' ← write (offsets lsh) i x;
    Ret ({| projections := projections lsh; offsets := offsets' |}, gen) in
  if decide (i < Z.to_nat (n_embd cparams0))%nat
  then exists lsh' gen',
         body i (lsh, gen) = Ret (lsh', gen')
         /\ lsh_extents (Z.to_nat (n_hash cparams0)) (Z.to_nat (n_embd cparams0)) lsh'
  else body i (lsh, gen) = Undef buffer_overrun.
Proof.
  intros Hext Hi body. unfold body.
  destruct (e4b_init_inner_loop _ _ i lsh gen Hext Hi)
    as (lsh1 & g1 & -> & (Hp & Hrows & Ho)). simpl.
  destruct (ud (n_hash cparams0) g1) as [x g2]. unfold write.
  case_decide.
  - rewrite decide_True by lia. simpl. eexists _, _. split; [done|].
    split; [done|]. split; [done|]. simpl. by rewrite length_insert.
  - by rewrite decide_False by lia.
Qed.

(** [e4b_init] returns when there are no more hash bits than components,
    and overruns the offsets otherwise. *)
Lemma e4b_init_cases (cparams0 : e4b_context_params) gen :
  if decide (Z.to_nat (n_hash cparams0) <= Z.to_nat (n_embd cparams0))%nat
  then exists ctx, e4b_init generator nd ud cparams0 gen = Ret ctx
                   /\ lsh_extents (Z.to_nat (n_hash cparams0))
                        (Z.to_nat (n_embd cparams0)) (lsh_ctx ctx)
  else e4b_init generator nd ud cparams0 gen = Undef buffer_overrun.
Proof.
  unfold e4b_init, for_loop.
  pose proof (e4b_init_new_extents (n_hash cparams0) (n_embd cparams0)) as Hnew.
  set (Q := fun s : e4b_lsh_context * generator =>
         lsh_extents (Z.to_nat (n_hash cparams0)) (Z.to_nat (n_embd cparams0)) s.1).
  case_decide as Hle.
  - edestruct (for_loop_from_total (fun _ => Q)) as ([lsh g] & -> & Hext);
      [| |simpl; eexists; split; [done|exact Hext]]; [|exact Hnew].
    intros j [lsh1 g1] Hj Hext1.
    pose proof (e4b_init_outer_step cparams0 j lsh1 g1 Hext1 ltac:(lia)) as Hstep.
    simpl in Hstep. rewrite decide_True in Hstep by lia.
    destruct Hstep as (lsh' & g' & Hstep & Hext'). by exists (lsh', g').
  - rewrite (for_loop_from_undef Q buffer_overrun _ _ (Z.to_nat (n_embd cparams0)));
      [done| |lia| |exact Hnew].
    + intros j [lsh1 g1] Hj Hext1.
      pose proof (e4b_init_outer_step cparams0 j lsh1 g1 Hext1 ltac:(lia)) as Hstep.
      simpl in Hstep. case_decide; [|by left].
      destruct Hstep as (lsh' & g' & Hstep & Hext'). right. by exists (lsh', g').
    + intros [lsh1 g1] Hext1.
      pose proof (e4b_init_outer_step cparams0 (Z.to_nat (n_embd cparams0)) lsh1 g1
                    Hext1 ltac:(lia)) as Hstep.
      simpl in Hstep. by rewrite decide_False in Hstep by lia.
Qed.

(** X19. [e4b_init] returns exactly when [n_hash <= n_embd]; the index is
    then empty, with [size] 0, the initial capacity in slots, [n_hash]
    projection vectors of [n_embd] floats and [n_embd] offsets. With more
    hash bits than components it writes past the end of the offsets. *)
Theorem e4b_init_spec (cparams0 : e4b_context_params) gen :
  if decide (Z.to_nat (n_hash cparams0) <= Z.to_nat (n_embd cparams0))%nat
  then exists ctx,
         e4b_init generator nd ud cparams0 gen = Ret ctx
         /\ cparams ctx = cparams0 /\ index ctx = ∅ /\ size ctx = 0
         /\ capacity ctx = to_uint32 (n_init_capacity cparams0)
         /\ entries ctx = replicate (Z.to_nat (capacity ctx)) None
         /\ projector_ok ctx
  else e4b_init generator nd ud cparams0 gen = Undef buffer_overrun.
Proof.
  pose proof (e4b_init_cases cparams0 gen) as H.
  case_decide as Hle; [|done].
  destruct H as (ctx & Hinit & Hp & Hrows & Ho). exists ctx.
  destruct (e4b_init_store _ _ _ _ _ _ Hinit) as (Hcp & Hidx & Hsize & Hcap & Hentries).
  repeat split; try done.
  - by rewrite Hcap.
  - by rewrite Hcp.
  - by rewrite Hcp.
  - by rewrite Hcp.
  - by rewrite Hcp.
Qed.

Lemma reachable_projector ctx :
  reachable rodata generator nd ud ctx -> projector_ok ctx.
Proof.
  induction 1 as [cparams0 gen ctx Hinit|ctx text n_text embd ctx' r _ IH Hindex].
  - pose proof (e4b_init_cases cparams0 gen) as H.
    case_decide as Hle; [|congruence].
    destruct H as (ctx1 & Hinit1 & Hp & Hrows & Ho).
    assert (ctx1 = ctx) as -> by congruence.
    destruct (e4b_init_store _ _ _ _ _ _ Hinit) as (Hcp & _).
    unfold projector_ok. by rewrite Hcp.
  - apply e4b_index_cases in Hindex as (key & _ & [(_ & _ & -> & _)|[_ H]]); [done|].
    destruct H as (Hcp & Hlsh & _). unfold projector_ok. by rewrite Hcp, Hlsh.
Qed.

End Construction.

(** ** Calls that are defined *)

Lemma F32_to_int_cases (x : float) :
  F32.to_int x = Undef float_cast_range \/ exists z, F32.to_int x = Ret z.
Proof.
  destruct x as [s|s| |s m e]; simpl; try (by left); try (right; by eexists).
  case_decide; [right; by eexists|by left].
Qed.

(** With a projector of the right extents, the built-in hash of a buffer of
    [n_embd] floats can only fail in the cast to [int]. *)
Lemma e4b_lsh_cases (ctx : e4b_context) (embd : list float) :
  projector_ok ctx ->
  (Z.to_nat (n_embd (cparams ctx)) <= length embd)%nat ->
  e4b_lsh ctx embd (n_embd (cparams ctx)) = Undef float_cast_range
  \/ exists hash, e4b_lsh ctx embd (n_embd (cparams ctx)) = Ret hash.
Proof.
  intros (Hp & Hrows & Ho & Hle) Hembd. unfold e4b_lsh.
  set (n := Z.to_nat (n_hash (cparams ctx))) in *.
  unfold for_loop at 1.
  edestruct (for_loop_from_cases (fun a : list Z => length a = n) float_cast_range)
    as [H|(hash & H & _)]; [| |left; exact H|right; by exists hash];
    [|by rewrite length_replicate].
  intros i a Hi Ha.
  destruct (lookup_lt_is_Some_2 (projections (lsh_ctx ctx)) i) as [row Hrow]; [lia|].
  pose proof (proj1 (Forall_lookup _ _) Hrows _ _ Hrow) as Hlen. simpl in Hlen.
  rewrite (lsh_inner_loop _ _ _ _ _ Hrow Hembd) by lia. simpl.
  destruct (lookup_lt_is_Some_2 (offsets (lsh_ctx ctx)) i) as [off Hoff]; [lia|].
  rewrite (read_Some _ _ _ Hoff). simpl.
  destruct (F32_to_int_cases
              (F32.abs (F32.floor (F32.div (F32.add (lsh_dot embd row (n_embd (cparams ctx)))
                                              off) (F32.of_Z (n_hash (cparams ctx)))))))
    as [->|[hi ->]]; [by left|]. simpl.
  right. unfold write. rewrite decide_True by lia.
  eexists. split; [done|]. by rewrite length_insert.
Qed.

Lemma mapM_returns {A B} (f : A -> outcome B) (l : list A) :
  (forall x, x ∈ l -> exists y, f x = Ret y) -> exists k, mapM f l = Ret k.
Proof.
  induction l as [|x l IH]; intros H; simpl; [by eexists|].
  destruct (H x) as [y ->]; [by left|]. simpl.
  destruct IH as [k ->]; [|by eexists].
  intros x' Hx'. apply H. by right.
Qed.

Section Defined.

Variable rodata : nat -> ascii.
Variable std_sort : list e4b_query_result_entry -> list e4b_query_result_entry.
Hypothesis std_sort_perm : forall l, std_sort l ≡ₚ l.
Variable generator : Type.
Variable nd : generator -> float * generator.
Variable ud : Z -> generator -> float * generator.

(** X20. In every state of an index, the built-in hash of a buffer that
    holds [n_embd] floats stays within the projector and the buffer: it
    returns a hash, or one of its values does not fit an [int]. *)
Theorem reachable_lsh_in_bounds ctx embd :
  reachable rodata generator nd ud ctx ->
  (Z.to_nat (n_embd (cparams ctx)) <= length embd)%nat ->
  e4b_lsh ctx embd (n_embd (cparams ctx)) = Undef float_cast_range
  \/ exists hash, e4b_lsh ctx embd (n_embd (cparams ctx)) = Ret hash.
Proof.
  intros Hreach Hembd. apply e4b_lsh_cases; [|done].
  by eapply reachable_projector.
Qed.

Lemma reachable_entries_long ctx :
  reachable rodata generator nd ud ctx ->
  fn_hash (cparams ctx) = builtin_lsh ->
  0 < n_hash (cparams ctx) ->
  entries_long ctx.
Proof.
  induction 1 as [cparams0 gen ctx Hinit|ctx text n_text embd ctx' r Hreach IH Hindex].
  - intros _ _ i e Hi. apply e4b_init_store in Hinit as (_ & _ & Hsize & _).
    rewrite Hsize in Hi. simpl in Hi. lia.
  - pose proof (reachable_store _ _ _ _ _ Hreach) as Hok.
    apply e4b_index_cases in Hindex as (key & Hkey & [(_ & _ & -> & _)|[_ H]]); [done|].
    pose proof (inserted_size _ _ _ _ Hok H) as Hsize.
    destruct H as (Hcp & _ & _ & _ & _ & Hnew & Hold & _).
    unfold entries_long in *. rewrite Hcp. intros Hfn Hn i e Hi He. rewrite Hsize in Hi.
    destruct (decide (i = Z.to_nat (size ctx))) as [->|Hne].
    + rewrite Hnew in He. injection He as <-. simpl.
      unfold signature_key, call_fn_hash in Hkey. rewrite Hfn in Hkey.
      apply bind_Ret in Hkey as (hash & Hhash & _).
      destruct (decide (Z.to_nat (n_embd (cparams ctx)) <= length embd)%nat); [done|].
      rewrite e4b_lsh_short in Hhash by lia. done.
    + destruct Hok as [[? ?] _ _ _ _ _].
      rewrite Hold in He by lia. eapply (IH Hfn Hn i); [lia|done].
Qed.

Lemma reachable_nonempty ctx :
  reachable rodata generator nd ud ctx -> buckets_nonempty (index ctx).
Proof.
  induction 1 as [cparams0 gen ctx Hinit|ctx text n_text embd ctx' r _ IH Hindex].
  - rewrite (e4b_init_index _ _ _ _ _ _ Hinit). intros key bucket.
    by rewrite lookup_empty.
  - by eapply e4b_index_buckets.
Qed.

(** X21. In every state of an index that uses the built-in hash, with at
    least one bit, and the built-in similarity, a query whose buffer holds
    [n_embd] floats and whose key is in the map scores every candidate of its
    bucket: no read of the store or of an embedding is out of bounds. The
    bucket is not empty, and the query returns when the selection keeps an
    entry, with [total] the size of the bucket; when nothing is kept, the
    read [*results] is undefined. *)
Theorem reachable_query_returns ctx q_embd n_q_embd top_n similarity bucket :
  reachable rodata generator nd ud ctx ->
  fn_hash (cparams ctx) = builtin_lsh ->
  fn_similarity (cparams ctx) = builtin_cosine_similarity ->
  0 < n_hash (cparams ctx) ->
  (Z.to_nat (n_embd (cparams ctx)) <= length q_embd)%nat ->
  0 <= top_n < 2 ^ 32 ->
  e4b_query_bucket rodata ctx q_embd n_q_embd = Ret bucket ->
  exists v_results,
    mapM (e4b_query_score ctx q_embd) bucket = Ret v_results
    /\ 0 < Z.of_nat (length bucket)
    /\ e4b_query rodata std_sort ctx q_embd n_q_embd top_n similarity
       = match query_kept (std_sort v_results) top_n similarity with
         | r :: kept =>
             Ret {| results := ptr_to r;
                    n_results := Z.of_nat (length (r :: kept));
                    total := Z.of_nat (length bucket) |}
         | [] =>
             Undef (if decide (Z.min top_n (Z.of_nat (length bucket)) = 0)
                    then buffer_overrun else indeterminate_read)
         end.
Proof.
  intros Hreach Hfn Hsim Hn Hq Htop Hbucket.
  pose proof (reachable_store _ _ _ _ _ Hreach) as [Hsize Hcap Hext Hocc Hh Hb].
  pose proof (reachable_entries_long _ Hreach Hfn Hn) as Hlong.
  assert (Hkey : exists key, index ctx !! key = Some bucket).
  { unfold e4b_query_bucket in Hbucket.
    apply bind_Ret in Hbucket as (key & _ & Hat). exists key.
    unfold index_at in Hat. by destruct (index ctx !! key) as [b|]; [injection Hat as ->|]. }
  destruct Hkey as [key Hkey].
  pose proof (reachable_nonempty _ Hreach _ _ Hkey) as Hne.
  specialize (Hb _ _ Hkey).
  assert (Hpos : 0 < size ctx).
  { destruct bucket as [|h bucket]; [done|].
    specialize (Hh _ _ h Hkey ltac:(by left)). lia. }
  destruct (Hocc O) as [e0 He0]; [lia|].
  destruct (mapM_returns (e4b_query_score ctx q_embd) bucket) as [v Hv].
  { intros h Hin. specialize (Hh _ _ _ Hkey Hin).
    destruct (Hocc (Z.to_nat (to_uint32 h))) as [e He]; [lia|].
    unfold e4b_query_score, read_entry.
    rewrite (read_Some _ _ _ He). simpl. rewrite (read_Some _ _ _ He0). simpl.
    unfold call_fn_similarity. rewrite Hsim.
    destruct (cosine_returns q_embd (embd e0) (n_embd (cparams ctx))) as [s ->];
      [done|by eapply (Hlong O); [lia|]|].
    simpl. by eexists. }
  exists v. split; [done|]. split; [destruct bucket; [done|simpl; lia]|].
  unfold e4b_query.
  rewrite (e4b_query_array_outcome rodata std_sort std_sort_perm
             _ _ _ _ _ _ _ Hbucket Hne Hv Htop ltac:(lia)).
  destruct (query_kept (std_sort v) top_n similarity) as [|r kept]; [|done].
  simpl. f_equal. repeat case_decide; try done; lia.
Qed.

End Defined.

(** ** Exceptions and short buffers *)

Lemma no_throw_Ret {A} (a : A) : no_throw (Ret a).
Proof. by intros e. Qed.

Lemma no_throw_Undef {A} (u : undefined) : no_throw (@Undef A u).
Proof. by intros e. Qed.

Lemma no_throw_bind {A B} (m : outcome A) (k : A -> outcome B) :
  no_throw m -> (forall a, no_throw (k a)) -> no_throw (m ≫= k).
Proof.
  intros Hm Hk. destruct m as [a|e|u]; simpl; [apply Hk|by destruct (Hm e)|done].
Qed.

Lemma no_throw_fmap {A B} (f : A -> B) (m : outcome A) :
  no_throw m -> no_throw (f <$> m).
Proof. intros Hm. destruct m as [a|e|u]; simpl; [done|by destruct (Hm e)|done]. Qed.

Lemma no_throw_read {A} (a : list A) i : no_throw (read a i).
Proof. unfold read. by destruct (a !! i). Qed.

Lemma no_throw_write {A} (a : list A) i x : no_throw (write a i x).
Proof. unfold write. by case_decide. Qed.

Lemma no_throw_for_loop {S} (body : nat -> S -> outcome S) n s :
  (forall j t, no_throw (body j t)) -> no_throw (for_loop n body s).
Proof.
  intros Hbody. unfold for_loop. generalize O. revert s.
  induction n as [|n IH]; intros s i; simpl; [done|].
  apply no_throw_bind; [done|]. intros t. apply IH.
Qed.

Lemma no_throw_mapM {A B} (f : A -> outcome B) (l : list A) :
  (forall x, no_throw (f x)) -> no_throw (mapM f l).
Proof.
  intros Hf. induction l as [|x l IH]; simpl; [done|].
  apply no_throw_bind; [done|]. intros y.
  apply no_throw_bind; [done|]. by intros k.
Qed.

Create HintDb no_throw.

#[local] Hint Resolve no_throw_Ret no_throw_Undef no_throw_read no_throw_write : no_throw.

Ltac no_throw_step :=
  first [ apply no_throw_bind; [|intros ?]
        | apply no_throw_for_loop; intros ? ?
        | apply no_throw_mapM; intros ?
        | progress auto with no_throw ].

Lemma no_throw_lsh ctx embd n_embd : no_throw (e4b_lsh ctx embd n_embd).
Proof.
  unfold e4b_lsh. repeat no_throw_step.
  destruct (F32_to_int_cases
              (F32.abs (F32.floor (F32.div (F32.add a a0)
                                     (F32.of_Z (n_hash (cparams ctx)))))))
    as [->|[z ->]]; auto with no_throw.
Qed.

Lemma no_throw_cosine embd_a embd_b n_embd :
  no_throw (e4b_cosine_similarity embd_a embd_b n_embd).
Proof.
  unfold e4b_cosine_similarity. apply no_throw_bind.
  - apply no_throw_for_loop. intros j [[dot norm1] norm2].
    repeat no_throw_step.
  - intros [[dot norm1] norm2]. auto with no_throw.
Qed.

Lemma no_throw_hash_to_key rodata hash n_hash :
  no_throw (e4b_internal_hash_to_key rodata hash n_hash).
Proof.
  unfold e4b_internal_hash_to_key. repeat no_throw_step.
  case_decide; auto with no_throw.
Qed.

Lemma no_throw_select v top_n similarity :
  no_throw (e4b_query_select v top_n similarity).
Proof.
  unfold e4b_query_select. apply no_throw_bind.
  - apply no_throw_for_loop. intros j [results n]. apply no_throw_bind; [auto with no_throw|].
    intros r. destruct (F32.geb (score r) similarity); [|auto with no_throw].
    apply no_throw_bind; auto with no_throw.
  - intros [results n]. auto with no_throw.
Qed.

Lemma no_throw_grow ctx : no_throw (e4b_internal_grow ctx).
Proof.
  unfold e4b_internal_grow.
  destruct (use_persistent_storage (cparams ctx)); [auto with no_throw|].
  apply no_throw_bind.
  - destruct (grow_ratio (cparams ctx)) as [s|s| |s m e]; simpl; auto with no_throw.
    case_decide; auto with no_throw.
  - intros ratio. repeat no_throw_step.
Qed.

Section Exceptions.

Variable rodata : nat -> ascii.
Variable std_sort : list e4b_query_result_entry -> list e4b_query_result_entry.

Lemma no_throw_signature_key ctx embd n_embd :
  fn_hash (cparams ctx) = builtin_lsh ->
  no_throw (signature_key rodata ctx embd n_embd).
Proof.
  intros Hfn. unfold signature_key, call_fn_hash. rewrite Hfn.
  apply no_throw_bind; [apply no_throw_lsh|]. intros hash.
  apply no_throw_hash_to_key.
Qed.

(** X22. With the built-in hash and the built-in similarity, [e4b_index]
    raises no exception, and [e4b_query] raises one exactly when the key of
    its embedding is computed and is not in the bucket map. *)
Theorem e4b_exceptions ctx text n_text embd n_q_embd top_n similarity :
  fn_hash (cparams ctx) = builtin_lsh ->
  fn_similarity (cparams ctx) = builtin_cosine_similarity ->
  no_throw (e4b_index rodata ctx text n_text embd)
  /\ ((exists e, e4b_query rodata std_sort ctx embd n_q_embd top_n similarity = Throw e)
      <-> exists key, signature_key rodata ctx embd n_q_embd = Ret key
                      /\ index ctx !! key = None).
Proof.
  intros Hfn Hsim. split; [|split].
  - unfold e4b_index.
    pose proof (no_throw_signature_key ctx embd (n_embd (cparams ctx)) Hfn) as Hkey.
    unfold signature_key in Hkey.
    destruct (call_fn_hash ctx embd (n_embd (cparams ctx))) as [hash|e|u];
      simpl in *; [|by destruct (Hkey e)|done].
    apply no_throw_bind; [done|]. intros key.
    apply no_throw_bind.
    { case_decide; [apply no_throw_grow|auto with no_throw]. }
    intros [ctx1 grown]. destruct grown; simpl; [|auto with no_throw].
    apply no_throw_bind; auto with no_throw.
  - intros [e H]. unfold e4b_query in H.
    rewrite e4b_query_array_bucket in H. unfold e4b_query_bucket in H.
    pose proof (no_throw_signature_key ctx embd n_q_embd Hfn) as Hkey.
    destruct (signature_key rodata ctx embd n_q_embd) as [key|e'|u];
      simpl in H; [|by destruct (Hkey e')|done].
    exists key. split; [done|]. unfold index_at in H.
    destruct (index ctx !! key) as [bucket|]; [|done]. exfalso. simpl in H.
    revert H. apply no_throw_fmap. case_decide; [auto with no_throw|].
    apply no_throw_bind.
    + apply no_throw_mapM. intros h. unfold e4b_query_score, read_entry.
      apply no_throw_bind.
      { apply no_throw_bind; [auto with no_throw|]. intros [e1|]; auto with no_throw. }
      intros e1. apply no_throw_bind.
      { apply no_throw_bind; [auto with no_throw|]. intros [e0|]; auto with no_throw. }
      intros e0. apply no_throw_bind; [|auto with no_throw].
      unfold call_fn_similarity. rewrite Hsim. apply no_throw_cosine.
    + intros v. apply no_throw_bind; [apply no_throw_select|].
      intros [[results n] total]. apply no_throw_bind; [|auto with no_throw].
      unfold deref_results. destruct (results !! 0%nat) as [[r|]|]; auto with no_throw.
  - intros (key & Hkey & Hmiss). exists out_of_range.
    by eapply e4b_query_miss.
Qed.

(** X4. With the built-in hash and at least one hash bit, an insert whose
    buffer holds fewer than [n_embd] floats, and a query whose buffer holds
    fewer than [n_q_embd] floats, read past the end of the buffer. *)
Theorem e4b_short_buffer ctx text n_text embd n_q_embd top_n similarity :
  fn_hash (cparams ctx) = builtin_lsh ->
  0 < n_hash (cparams ctx) ->
  (length embd < Z.to_nat (n_embd (cparams ctx)))%nat ->
  (length embd < Z.to_nat n_q_embd)%nat ->
  e4b_index rodata ctx text n_text embd = Undef buffer_overrun
  /\ e4b_query rodata std_sort ctx embd n_q_embd top_n similarity = Undef buffer_overrun.
Proof.
  intros Hfn Hn Hshort Hshort'. split.
  - unfold e4b_index, call_fn_hash. by rewrite Hfn, e4b_lsh_short.
  - unfold e4b_query, e4b_query_array, call_fn_hash.
    by rewrite Hfn, e4b_lsh_short.
Qed.

End Exceptions.

(** ** The test *)

(** X23. The test of the cosine similarity passes: for both pairs of vectors
    the similarity computed in binary32 is within [1e-3] of the expected
    value. *)
Theorem test_cosine_similarity_passes : Test.main = Ret true.
Proof. vm_compute. reflexivity. Qed.

(** ** Instances *)

Lemma demo_store_ok ratio persistent :
  store_ok (Run.filled ratio persistent Run.entry_a Run.entry_b).
Proof.
  apply (reachable_store Run.rodata Run.generator Run.nd Run.ud), run_reachable.
Qed.

Lemma demo_query_top_1 :
  e4b_query_array Run.rodata Run.std_sort Demo.index_ab Run.embd_a 4 1 F32.zero
  = Ret ([Some Demo.first_a], Demo.top_1).
Proof. vm_compute. reflexivity. Qed.

Lemma demo_bucket :
  e4b_query_bucket Run.rodata Demo.index_ab Run.embd_a 4 = Ret [0; 1].
Proof. vm_compute. reflexivity. Qed.

(** Keys of three characters over an image of zero bytes. *)
Lemma e4b_internal_hash_to_key_inj_witness :
  e4b_internal_hash_to_key Run.rodata [0; 1; 0] 3
  = e4b_internal_hash_to_key Run.rodata [0; 5; -2] 3
  <-> same_signs (Z.to_nat 3) [0; 1; 0] [0; 5; -2].
Proof.
  apply e4b_internal_hash_to_key_inj.
  - intros k _. discriminate.
  - simpl. lia.
  - simpl. lia.
Defined.

(** Two signatures that differ in their third bit, over an image of ones. *)
Lemma e4b_internal_hash_to_key_collides_witness :
  e4b_internal_hash_to_key Demo.rodata_ones [0; 0; 0] 3
  = e4b_internal_hash_to_key Demo.rodata_ones [0; 0; 1] 3.
Proof.
  apply (e4b_internal_hash_to_key_collides Demo.rodata_ones _ _ 3 0).
  - reflexivity.
  - simpl. lia.
  - simpl. lia.
  - simpl. lia.
  - intros i Hi Hne. simpl in Hi, Hne. destruct i as [|[|[|i]]]; simpl; lia.
Defined.

Lemma e4b_lsh_shape_witness :
  length [0] = Z.to_nat (n_hash (cparams (Run.fresh Run.two false)))
  /\ Forall (fun b => b = 0 \/ b = 1) [0].
Proof.
  apply (e4b_lsh_shape (Run.fresh Run.two false) Run.embd_a 4).
  vm_compute. reflexivity.
Defined.

Lemma e4b_short_buffer_witness :
  e4b_index Run.rodata (Run.fresh Run.two false) "c" 1 [Run.f 1] = Undef buffer_overrun
  /\ e4b_query Run.rodata Run.std_sort (Run.fresh Run.two false) [Run.f 1] 4 2 F32.zero
     = Undef buffer_overrun.
Proof.
  apply e4b_short_buffer.
  - reflexivity.
  - simpl. lia.
  - simpl. lia.
  - simpl. lia.
Defined.

Lemma e4b_cosine_similarity_zero_witness :
  e4b_cosine_similarity [F32.zero; F32.zero] [Run.f 1; Run.f 2] 2 = Ret S754_nan.
Proof.
  apply e4b_cosine_similarity_zero.
  - simpl. lia.
  - simpl. lia.
  - left. simpl. repeat constructor.
Defined.

Lemma e4b_index_returns_witness :
  use_persistent_storage (cparams (Run.fresh Run.two false)) = true
  /\ capacity (Run.fresh Run.two false) = size (Run.fresh Run.two false)
  /\ Run.one_entry Run.two false Run.entry_a = Run.fresh Run.two false
  /\ 0 = 4294967295
  \/ 0 = size (Run.fresh Run.two false)
     /\ size (Run.one_entry Run.two false Run.entry_a)
        = to_uint32 (size (Run.fresh Run.two false) + 1)
     /\ entries (Run.one_entry Run.two false Run.entry_a) !! Z.to_nat 0
        = Some (Some {| text := "a"; embd := Run.embd_a; n_text := 1 |}).
Proof.
  apply (e4b_index_returns Run.rodata (Run.fresh Run.two false) "a" 1 Run.embd_a).
  vm_compute. reflexivity.
Defined.

Lemma e4b_index_frame_witness :
  (forall i, (i < Z.to_nat (size (Run.one_entry Run.two false Run.entry_a)))%nat ->
             entries Demo.index_ab !! i
             = entries (Run.one_entry Run.two false Run.entry_a) !! i)
  /\ (forall key', key' <> "0" ->
        index Demo.index_ab !! key'
        = index (Run.one_entry Run.two false Run.entry_a) !! key')
  /\ lsh_ctx Demo.index_ab = lsh_ctx (Run.one_entry Run.two false Run.entry_a)
  /\ cparams Demo.index_ab = cparams (Run.one_entry Run.two false Run.entry_a).
Proof.
  apply (e4b_index_frame Run.rodata (Run.one_entry Run.two false Run.entry_a)
           "b" 1 Run.embd_b Demo.index_ab 1 "0").
  - vm_compute. reflexivity.
  - vm_compute. reflexivity.
Defined.

Lemma reachable_size_capacity_witness :
  0 <= size Demo.index_ab <= capacity Demo.index_ab
  /\ capacity Demo.index_ab < 2 ^ 32
  /\ length (entries Demo.index_ab) = Z.to_nat (capacity Demo.index_ab)
  /\ forall h, 0 <= h < size Demo.index_ab ->
               exists e, entries Demo.index_ab !! Z.to_nat h = Some (Some e).
Proof.
  apply (reachable_size_capacity Run.rodata Run.generator Run.nd Run.ud).
  apply run_reachable.
Defined.

Lemma reachable_handles_witness :
  (forall h, 0 <= h < size Demo.index_ab ->
             exists key bucket, index Demo.index_ab !! key = Some bucket
                                /\ to_int h ∈ bucket)
  /\ handles_unique (index Demo.index_ab).
Proof.
  apply (reachable_handles Run.rodata Run.generator Run.nd Run.ud).
  apply run_reachable.
Defined.

Lemma later_keeps_witness :
  store_ok Demo.index_ab
  /\ size (Run.one_entry Run.two false Run.entry_a) <= size Demo.index_ab
  /\ (forall i, (i < Z.to_nat (size (Run.one_entry Run.two false Run.entry_a)))%nat ->
        entries Demo.index_ab !! i
        = entries (Run.one_entry Run.two false Run.entry_a) !! i)
  /\ (forall key bucket,
        index (Run.one_entry Run.two false Run.entry_a) !! key = Some bucket ->
        exists more, index Demo.index_ab !! key = Some (bucket ++ more))
  /\ (forall embd n_embd,
        signature_key Run.rodata Demo.index_ab embd n_embd
        = signature_key Run.rodata (Run.one_entry Run.two false Run.entry_a) embd n_embd).
Proof.
  apply later_keeps.
  - apply (reachable_store Run.rodata Run.generator Run.nd Run.ud).
    eapply reachable_index; [|apply run_index_a].
    eapply reachable_init, run_init.
  - eapply later_index; [apply later_now|]. apply run_index_a_b.
Defined.

Lemma e4b_index_then_bucket_witness :
  e4b_query_bucket Run.rodata Demo.index_ab Run.embd_b
    (n_embd (cparams (Run.one_entry Run.two false Run.entry_a)))
  = Ret (default [] (index (Run.one_entry Run.two false Run.entry_a) !! "0")
         ++ [to_int 1]).
Proof.
  apply (e4b_index_then_bucket Run.rodata (Run.one_entry Run.two false Run.entry_a)
           "b" 1 Run.embd_b Demo.index_ab 1 "0").
  - vm_compute. reflexivity.
  - left. reflexivity.
  - vm_compute. reflexivity.
Defined.

Lemma e4b_index_succeeds_witness :
  exists ctx',
    e4b_index Run.rodata Demo.index_ab "b" 1 Run.embd_b = Ret (ctx', size Demo.index_ab)
    /\ inserted Demo.index_ab "0" {| text := "b"; embd := Run.embd_b; n_text := 1 |} ctx'.
Proof.
  apply e4b_index_succeeds.
  - apply demo_store_ok.
  - vm_compute. reflexivity.
  - right. split; [reflexivity|]. exists 2. split; [reflexivity|].
    vm_compute. reflexivity.
Defined.

Lemma e4b_index_overrun_witness :
  e4b_index Run.rodata (Run.filled Run.three_halves false Run.entry_a Run.entry_b)
    "b" 1 Run.embd_b
  = Undef buffer_overrun.
Proof.
  apply (e4b_index_overrun Run.rodata _ "b" 1 Run.embd_b "0" 1).
  - apply demo_store_ok.
  - vm_compute. reflexivity.
  - reflexivity.
  - reflexivity.
  - vm_compute. reflexivity.
  - vm_compute. discriminate.
Defined.

Lemma e4b_query_all_or_none_witness :
  n_results Demo.top_1 = 0 \/ n_results Demo.top_1 = Z.min 1 (total Demo.top_1).
Proof.
  apply (e4b_query_all_or_none Run.rodata Run.std_sort run_std_sort_perm
           Demo.index_ab Run.embd_a 4 1 F32.zero [0; 1] [Some Demo.first_a]).
  - apply demo_bucket.
  - discriminate.
  - lia.
  - simpl. lia.
  - apply demo_query_top_1.
Defined.

Lemma e4b_query_results_from_bucket_witness :
  exists h, h ∈ [0; 1] /\ idx Demo.first_a = to_uint32 h
            /\ entries Demo.index_ab !! Z.to_nat (idx Demo.first_a)
               = Some (Some (entry Demo.first_a)).
Proof.
  apply (e4b_query_results_from_bucket Run.rodata Run.std_sort run_std_sort_perm
           Demo.index_ab Run.embd_a 4 1 F32.zero [0; 1] [Some Demo.first_a] Demo.top_1).
  - apply demo_bucket.
  - discriminate.
  - lia.
  - simpl. lia.
  - apply demo_query_top_1.
  - simpl. by left.
Defined.

Lemma demo_scores :
  mapM (e4b_query_score Demo.index_ab Run.embd_a) [0; 1]
  = Ret [Demo.first_a;
         {| idx := 1; entry := Run.entry_b; score := F32.dyadic 1 (-1) |}].
Proof. vm_compute. reflexivity. Qed.

Lemma e4b_query_results_pointer_witness :
  e4b_query Run.rodata Run.std_sort Demo.index_ab Run.embd_a 4 1 F32.zero
  = match query_kept
            (Run.std_sort
               [Demo.first_a;
                {| idx := 1; entry := Run.entry_b; score := F32.dyadic 1 (-1) |}])
            1 F32.zero with
    | r :: kept =>
        Ret {| results := ptr_to r;
               n_results := Z.of_nat (length (r :: kept));
               total := Z.of_nat (length [0; 1]) |}
    | [] =>
        Undef (if decide (Z.min 1 (Z.of_nat (length [0; 1])) = 0)
               then buffer_overrun else indeterminate_read)
    end.
Proof.
  apply (e4b_query_results_pointer Run.rodata Run.std_sort run_std_sort_perm
           Demo.index_ab Run.embd_a 4 1 F32.zero [0; 1]).
  - apply demo_bucket.
  - discriminate.
  - apply demo_scores.
  - lia.
  - simpl. lia.
Defined.

Lemma reachable_lsh_in_bounds_witness :
  e4b_lsh Demo.index_ab Run.embd_a (n_embd (cparams Demo.index_ab))
  = Undef float_cast_range
  \/ exists hash, e4b_lsh Demo.index_ab Run.embd_a (n_embd (cparams Demo.index_ab))
                  = Ret hash.
Proof.
  apply (reachable_lsh_in_bounds Run.rodata Run.generator Run.nd Run.ud).
  - apply run_reachable.
  - simpl. lia.
Defined.

Lemma reachable_query_returns_witness :
  exists v_results,
    mapM (e4b_query_score Demo.index_ab Run.embd_a) [0; 1] = Ret v_results
    /\ 0 < Z.of_nat (length [0; 1])
    /\ e4b_query Run.rodata Run.std_sort Demo.index_ab Run.embd_a 4 2 F32.zero
       = match query_kept (Run.std_sort v_results) 2 F32.zero with
         | r :: kept =>
             Ret {| results := ptr_to r;
                    n_results := Z.of_nat (length (r :: kept));
                    total := Z.of_nat (length [0; 1]) |}
         | [] =>
             Undef (if decide (Z.min 2 (Z.of_nat (length [0; 1])) = 0)
                    then buffer_overrun else indeterminate_read)
         end.
Proof.
  apply (reachable_query_returns Run.rodata Run.std_sort run_std_sort_perm
           Run.generator Run.nd Run.ud).
  - apply run_reachable.
  - reflexivity.
  - reflexivity.
  - simpl. lia.
  - simpl. lia.
  - lia.
  - apply demo_bucket.
Defined.

Lemma e4b_exceptions_witness :
  no_throw (e4b_index Run.rodata (Run.fresh Run.two false) "a" 1 Run.embd_a)
  /\ ((exists e, e4b_query Run.rodata Run.std_sort (Run.fresh Run.two false)
                   Run.embd_a 4 2 F32.zero = Throw e)
      <-> exists key, signature_key Run.rodata (Run.fresh Run.two false) Run.embd_a 4
                      = Ret key
                      /\ index (Run.fresh Run.two false) !! key = None).
Proof.
  apply e4b_exceptions; reflexivity.
Defined.
